(** * ioredis-lock: a shallow embedding of [lib/lock.js]

    The development follows the source file top to bottom: JavaScript
    values and errors, the objects the module touches (connections,
    Shavaluators, Locks), the module-level registries, the constructor with
    [_setupClient] and [_setupLuaScripts], and then [acquire], [release] and
    [_attemptLock].  Promise callbacks are separate definitions, so that the
    same callback bodies run both in the sequential reading of one operation
    and under an interleaving scheduler with several Locks and one store. *)

From stdpp Require Import base option strings gmap list pretty.
From Stdlib Require Import ZArith Lia.

Local Open Scope string_scope.
Local Open Scope Z_scope.

(** ** JavaScript values *)

(** The primitive values that reach the module: store replies (null, "OK",
    0, 1) and a connection's [connection_id].  [JNum z] is the Number that
    the integer literal [z] denotes: [z] itself up to 2^53, the nearest
    double beyond. *)
Inductive jsval :=
| JUndefined
| JNull
| JBool (b : bool)
| JNum (z : Z)
| JStr (s : string).

#[global] Instance jsval_eq_dec : EqDecision jsval.
Proof. solve_decision. Defined.

(** ToBoolean, as used by [!res], [!client.connection_id]. *)
Definition truthy (v : jsval) : bool :=
  match v with
  | JUndefined | JNull => false
  | JBool b => b
  | JNum z => negb (z =? 0)
  | JStr s => match s with EmptyString => false | _ => true end
  end.

(** *** Numbers as property keys

    [Number::toString] for the integers: the digits of the shortest decimal
    that denotes the same double, written out up to 21 digits and in
    exponent form from 1e21 on. *)

(** The double nearest to the positive integer [x] (ties to the even
    significand). *)
Definition nearest_double (x : Z) : Z :=
  if x <=? 2 ^ 53 then x
  else
    let ulp := 2 ^ (Z.log2 x - 52) in
    let q := x / ulp in
    let r := x mod ulp in
    if 2 * r <? ulp then q * ulp
    else if ulp <? 2 * r then (q + 1) * ulp
    else if Z.even q then q * ulp else (q + 1) * ulp.

(** Does the decimal [v] denote the double [x]?  [x] has the 53-bit
    significand [x / ulp]; the numbers that round to it lie within half a
    unit in the last place (a quarter on the lower side of a power of two),
    the ends included when the significand is even. *)
Definition rounds_to (x v : Z) : bool :=
  let ulp := 2 ^ (Z.log2 x - 52) in
  let significand := x / ulp in
  let above := ulp / 2 in
  let below := if significand =? 2 ^ 52 then ulp / 4 else ulp / 2 in
  if Z.even significand
  then (x - below <=? v) && (v <=? x + above)
  else (x - below <? v) && (v <? x + above).

(** The decimal with the fewest significant digits that denotes [x], the
    closest to [x] among those: a multiple of the largest power of ten
    [10 ^ m] that has one. *)
Fixpoint shortest_decimal (x : Z) (m : nat) : Z :=
  match m with
  | O => x
  | S m' =>
      let p := 10 ^ Z.of_nat m in
      let v1 := x / p * p in
      let v2 := v1 + p in
      match rounds_to x v1, rounds_to x v2 with
      | true, true =>
          if x - v1 <? v2 - x then v1
          else if v2 - x <? x - v1 then v2
          else if Z.even (v1 / p) then v1 else v2
      | true, false => v1
      | false, true => v2
      | false, false => shortest_decimal x m'
      end
  end.

Fixpoint strip_zeros (fuel : nat) (v : Z) : Z :=
  match fuel with
  | O => v
  | S fuel' => if (0 <? v) && (v mod 10 =? 0) then strip_zeros fuel' (v / 10) else v
  end.

(** The string of a positive integer Number. *)
Definition positive_to_string (x : Z) : string :=
  if x <=? 2 ^ 53 then pretty x
  else if 2 ^ 1024 <=? x then "Infinity"
  else
    let v := shortest_decimal x (String.length (pretty x)) in
    let n := String.length (pretty v) in
    if (n <=? 21)%nat then pretty v
    else
      match pretty (strip_zeros n v) with
      | String d EmptyString => String d "e+" +:+ pretty (Nat.pred n)
      | String d rest => String d ("." +:+ rest) +:+ "e+" +:+ pretty (Nat.pred n)
      | EmptyString => EmptyString
      end.

Definition number_to_string (z : Z) : string :=
  match z with
  | 0 => "0"
  | Z.pos _ => positive_to_string (nearest_double z)
  | Z.neg _ => "-" +:+ positive_to_string (nearest_double (- z))
  end.

(** ToPropertyKey, as used by [id in obj] and [obj[id]]. *)
Definition to_key (v : jsval) : string :=
  match v with
  | JUndefined => "undefined"
  | JNull => "null"
  | JBool true => "true"
  | JBool false => "false"
  | JNum z => number_to_string z
  | JStr s => s
  end.

(** *** Plain objects used as maps

    [Lock._promisifiedClients] and [Lock._shavaluators] are object literals:
    besides the properties the module puts there, a lookup finds what every
    object inherits from [Object.prototype]. *)
Definition object_prototype : list string :=
  ["constructor"; "__defineGetter__"; "__defineSetter__"; "hasOwnProperty";
   "__lookupGetter__"; "__lookupSetter__"; "isPrototypeOf";
   "propertyIsEnumerable"; "toString"; "valueOf"; "__proto__"; "toLocaleString"].

Definition inherited (k : string) : bool := bool_decide (k ∈ object_prototype).

(** Object references (addresses in a heap of objects). *)
Abbreviation ref := nat (only parsing).

(** What a property of such a map holds: an object the module stored there,
    or the value inherited under that name ([Object] for "constructor", a
    method of [Object.prototype] for "toString", ...), which is truthy and
    is neither a connection nor a Shavaluator. *)
Inductive jsobj :=
| At (r : ref)
| Inherited (name : string).

Coercion At : nat >-> jsobj.

#[global] Instance jsobj_eq_dec : EqDecision jsobj.
Proof. solve_decision. Defined.

(** [obj[id]] on a map with the own properties [m]; [None] is undefined.
    [id in obj] is [is_Some] of it. *)
Definition get_property (m : gmap string ref) (id : string) : option jsobj :=
  match m !! id with
  | Some r => Some (At r)
  | None => if inherited id then Some (Inherited id) else None
  end.


(** ** Errors and results *)

(** Modelled from the spec: lib/errors.js is not among the sources.  The
    error classes are the ones section 7 of the specification lists;
    [lock.js] imports [LockAcquisitionError] and [LockReleaseError] from the
    module and constructs no other class.  Whatever else is thrown (by the
    store client) is an [ExternalError]. *)
Inductive error_kind := AcquisitionError | AlreadyHeldError | ReleaseError.

Inductive js_error :=
| LockError (kind : error_kind) (message : string)
| ExternalError (payload : string).

Definition LockAcquisitionError : string → js_error := LockError AcquisitionError.
Definition LockReleaseError : string → js_error := LockError ReleaseError.

#[global] Instance error_kind_eq_dec : EqDecision error_kind.
Proof. solve_decision. Defined.
#[global] Instance js_error_eq_dec : EqDecision js_error.
Proof. solve_decision. Defined.

(** How a call ends: the returned promise is fulfilled, the returned promise
    is rejected, or the call itself throws before returning a promise. *)
Inductive outcome :=
| Resolved
| Rejected (e : js_error)
| Threw (e : js_error).

(** How a promise of the store client settles. *)
Inductive reply :=
| Fulfilled (v : jsval)
| Failed (e : js_error).

(** ** Objects *)

(** A function-valued property of a connection: there from the start, or
    put there by [Promise.promisify(client[command])]. *)
Inductive method_val :=
| OwnMethod
| Promisified (command : string).

(** The connection (a RedisClient: its commands [get], [set], [watch]
    exist).  [connection_id] is [JUndefined] when the property is absent;
    [async_methods] holds the properties [getAsync], [setAsync], ... *)
Record client_obj := {
  connection_id : jsval;
  async_methods : gmap string method_val;
}.

(** A Shavaluator of redis-evalsha: the client it was built on, whether
    [promisifyAll] ran on it, the names of the scripts added. *)
Record shav_obj := {
  shav_client : ref;
  shav_promisified : bool;
  shav_scripts : list string;
}.

(** [Lock._defaults].  The three options are numbers ([retries] is
    documented as an int) and are integers here. *)
Record defaults := {
  timeout : Z;
  retries : Z;
  delay : Z;
}.

(** The options argument of the constructor; [None] is a property that is
    not [in options]. *)
Record options := {
  opt_timeout : option Z;
  opt_retries : option Z;
  opt_delay : option Z;
}.

(** A Lock object. *)
Record lock_obj := {
  lock_id : string;
  lock_locked : bool;
  lock_key : option string;
  lock_client : jsobj;
  lock_shavaluator : jsobj;
  lock_timeout : Z;
  lock_retries : Z;
  lock_delay : Z;
}.

(** Calls that leave the module, in the order they are made. *)
Inductive event :=
| EvPromisify (client : ref) (command : string)
| EvNewShavaluator (client : ref)
| EvPromisifyAll (shaval : ref)
| EvAddScript (shaval : ref) (name : string)
| EvSetAsync (client : jsobj) (key id : string) (px : Z)
| EvDelay (ms : Z)
| EvExecAsync (shaval : jsobj) (script : string) (keys args : list string)
| EvCallback (err : option js_error).

(** The process: the three heaps of objects, the statics of [Lock], the
    number of identifiers [uuid.v1] has handed out, and the calls made.
    The three registries are objects used as maps from identifiers; the
    maps here are their own properties, and [_setupClient] and
    [_setupLuaScripts] read them with [get_property]. *)
Record state := {
  locks : gmap ref lock_obj;
  clients : gmap ref client_obj;
  shavals : gmap ref shav_obj;
  _defaults : defaults;
  _promisifiedClients : gmap string ref;
  _shavaluators : gmap string ref;
  _acquiredLocks : gmap string ref;
  uuid_count : nat;
  trace : list event;
}.

Definition initial_defaults : defaults :=
  {| timeout := 10000; retries := 0; delay := 100 |}.

(** The module right after it is loaded, with the connections [cs] the
    program has created. *)
Definition initial_state (cs : gmap ref client_obj) : state :=
  {| locks := ∅; clients := cs; shavals := ∅;
     _defaults := initial_defaults;
     _promisifiedClients := ∅; _shavaluators := ∅; _acquiredLocks := ∅;
     uuid_count := 0; trace := [] |}.

Definition set_locks (f : gmap ref lock_obj → gmap ref lock_obj) (σ : state) : state :=
  {| locks := f (locks σ); clients := clients σ; shavals := shavals σ;
     _defaults := _defaults σ; _promisifiedClients := _promisifiedClients σ;
     _shavaluators := _shavaluators σ; _acquiredLocks := _acquiredLocks σ;
     uuid_count := uuid_count σ; trace := trace σ |}.

Definition set_clients (f : gmap ref client_obj → gmap ref client_obj) (σ : state) : state :=
  {| locks := locks σ; clients := f (clients σ); shavals := shavals σ;
     _defaults := _defaults σ; _promisifiedClients := _promisifiedClients σ;
     _shavaluators := _shavaluators σ; _acquiredLocks := _acquiredLocks σ;
     uuid_count := uuid_count σ; trace := trace σ |}.

Definition set_shavals (f : gmap ref shav_obj → gmap ref shav_obj) (σ : state) : state :=
  {| locks := locks σ; clients := clients σ; shavals := f (shavals σ);
     _defaults := _defaults σ; _promisifiedClients := _promisifiedClients σ;
     _shavaluators := _shavaluators σ; _acquiredLocks := _acquiredLocks σ;
     uuid_count := uuid_count σ; trace := trace σ |}.

Definition set_promisifiedClients (f : gmap string ref → gmap string ref) (σ : state) : state :=
  {| locks := locks σ; clients := clients σ; shavals := shavals σ;
     _defaults := _defaults σ; _promisifiedClients := f (_promisifiedClients σ);
     _shavaluators := _shavaluators σ; _acquiredLocks := _acquiredLocks σ;
     uuid_count := uuid_count σ; trace := trace σ |}.

Definition set_shavaluators (f : gmap string ref → gmap string ref) (σ : state) : state :=
  {| locks := locks σ; clients := clients σ; shavals := shavals σ;
     _defaults := _defaults σ; _promisifiedClients := _promisifiedClients σ;
     _shavaluators := f (_shavaluators σ); _acquiredLocks := _acquiredLocks σ;
     uuid_count := uuid_count σ; trace := trace σ |}.

Definition set_acquiredLocks (f : gmap string ref → gmap string ref) (σ : state) : state :=
  {| locks := locks σ; clients := clients σ; shavals := shavals σ;
     _defaults := _defaults σ; _promisifiedClients := _promisifiedClients σ;
     _shavaluators := _shavaluators σ; _acquiredLocks := f (_acquiredLocks σ);
     uuid_count := uuid_count σ; trace := trace σ |}.

Definition set_uuid_count (n : nat) (σ : state) : state :=
  {| locks := locks σ; clients := clients σ; shavals := shavals σ;
     _defaults := _defaults σ; _promisifiedClients := _promisifiedClients σ;
     _shavaluators := _shavaluators σ; _acquiredLocks := _acquiredLocks σ;
     uuid_count := n; trace := trace σ |}.

(** Appends one call to the trace. *)
Definition log (e : event) (σ : state) : state :=
  {| locks := locks σ; clients := clients σ; shavals := shavals σ;
     _defaults := _defaults σ; _promisifiedClients := _promisifiedClients σ;
     _shavaluators := _shavaluators σ; _acquiredLocks := _acquiredLocks σ;
     uuid_count := uuid_count σ; trace := trace σ ++ [e] |}.

(** ** The constructor *)

Section Construction.

(** [uuid.v1()] of node-uuid: the [n]-th identifier it hands out. *)
Variable uuid_v1 : nat → string.

Definition uuid (σ : state) : string * state :=
  (uuid_v1 (uuid_count σ), set_uuid_count (S (uuid_count σ)) σ).

(** One round of the [forEach] in [_setupClient]:
    [if (!client[asyncMethod]) client[asyncMethod] = Promise.promisify(client[method])]. *)
Definition promisify_method (client : ref) (σ : state) (method : string) : state :=
  let asyncMethod := method +:+ "Async" in
  match clients σ !! client with
  | None => σ
  | Some co =>
      match async_methods co !! asyncMethod with
      | Some _ => σ
      | None =>
          let co' := {| connection_id := connection_id co;
                        async_methods := <[asyncMethod := Promisified method]> (async_methods co) |} in
          set_clients <[client := co']> (log (EvPromisify client method) σ)
      end
  end.

(** [Lock.prototype._setupClient]; the result is the value stored in
    [this._client].  [None] only for a reference that is no connection.
    The test [id in Lock._promisifiedClients] also finds the names that the
    registry inherits: the function then returns what it finds there,
    without wrapping or registering anything. *)
Definition _setupClient (client : ref) (σ : state) : option (jsobj * state) :=
  co ← clients σ !! client;
  let '(co1, σ1) :=
    if negb (truthy (connection_id co)) then
      let '(u, σ') := uuid σ in
      let co' := {| connection_id := JStr u; async_methods := async_methods co |} in
      (co', set_clients <[client := co']> σ')
    else (co, σ) in
  let id := to_key (connection_id co1) in
  match get_property (_promisifiedClients σ1) id with
  | Some registered => Some (registered, σ1)
  | None =>
      let σ2 := foldl (promisify_method client) σ1 ["get"; "set"; "watch"] in
      Some (At client, set_promisifiedClients <[id := client]> σ2)
  end.

(** [Lock.prototype._setupLuaScripts]; the result is the value stored in
    [this._shavaluator].  [!Lock._shavaluators[id]] is false for whatever
    the lookup finds, an inherited value included: objects are truthy. *)
Definition _setupLuaScripts (client : ref) (σ : state) : option (jsobj * state) :=
  co ← clients σ !! client;
  let id := to_key (connection_id co) in
  match get_property (_shavaluators σ) id with
  | Some sh => Some (sh, σ)
  | None =>
      let sh := fresh (dom (shavals σ)) in
      let σ1 := set_shavaluators <[id := sh]>
                  (set_shavals <[sh := {| shav_client := client;
                                          shav_promisified := false;
                                          shav_scripts := [] |}]>
                     (log (EvNewShavaluator client) σ)) in
      let σ2 := set_shavals (alter (λ o, {| shav_client := shav_client o;
                                            shav_promisified := true;
                                            shav_scripts := shav_scripts o |}) sh)
                  (log (EvPromisifyAll sh) σ1) in
      let σ3 := set_shavals (alter (λ o, {| shav_client := shav_client o;
                                            shav_promisified := shav_promisified o;
                                            shav_scripts := shav_scripts o ++ ["delifequal"] |}) sh)
                  (log (EvAddScript sh "delifequal") σ2) in
      Some (At sh, σ3)
  end.

(** [this[key] = Lock._defaults[key]], then [this[key] = options[key]]
    for the keys of [Lock._defaults] that are [in options]. *)
Definition option_or_default (o : option options) (get : options → option Z) (d : Z) : Z :=
  match o with
  | Some opts => default d (get opts)
  | None => d
  end.

(** [new Lock(client, options)]; the result is the new Lock. *)
Definition Lock (client : ref) (opts : option options) (σ : state) : option (ref * state) :=
  let '(id, σ0) := uuid σ in
  '(c, σ1) ← _setupClient client σ0;
  '(sh, σ2) ← _setupLuaScripts client σ1;
  let d := _defaults σ2 in
  let this := {| lock_id := id; lock_locked := false; lock_key := None;
                 lock_client := c; lock_shavaluator := sh;
                 lock_timeout := option_or_default opts opt_timeout (timeout d);
                 lock_retries := option_or_default opts opt_retries (retries d);
                 lock_delay := option_or_default opts opt_delay (delay d) |} in
  let l := fresh (dom (locks σ2)) in
  Some (l, set_locks <[l := this]> σ2).

(** Several constructions on one connection, one after the other. *)
Fixpoint construct_all (client : ref) (optss : list (option options)) (σ : state)
  : option (list ref * state) :=
  match optss with
  | [] => Some ([], σ)
  | opts :: rest =>
      '(l, σ1) ← Lock client opts σ;
      '(ls, σ2) ← construct_all client rest σ1;
      Some (l :: ls, σ2)
  end.

End Construction.

(** ** The store, as the Lock sees it *)

(** The calls a Lock makes on its collaborators.  [World] is everything
    outside the process (the store, the network, the clock); each call may
    change it.  [client_setAsync c key id px] is
    [c.setAsync(key, id, 'PX', px, 'NX')] for the value [c] of
    [this._client], [shaval_execAsync sh name keys args] is
    [sh.execAsync(name, keys, args)] for the value [sh] of
    [this._shavaluator], [promise_delay ms] is what happens outside while
    the process sleeps in [Promise.delay(ms)]. *)
Class StoreAdapter (World : Type) := {
  client_setAsync : jsobj → string → string → Z → World → reply * World;
  shaval_execAsync : jsobj → string → list string → list string → World → reply * World;
  promise_delay : Z → World → World;
}.

(** ** Callbacks *)

(** What the callback passed to [then] in [_attemptLock] decides. *)
Inductive attempt_decision :=
| AttemptThrow (e : js_error)
| AttemptResolve
| AttemptRetry (retries : Z).

(** The body of that callback (lines 205-214), up to the delay. *)
Definition attemptLock_then (key : string) (retries : Z) (res : jsval) : attempt_decision :=
  if negb (truthy res) && (retries =? 0) then
    AttemptThrow (LockAcquisitionError ("Could not acquire lock on " +:+ key))
  else if truthy res then AttemptResolve
  else AttemptRetry (retries - 1).

(** The callback passed to [then] in [acquire] (lines 95-98). *)
Definition acquire_then (l : ref) (key : string) (σ : state) : state :=
  match locks σ !! l with
  | None => σ
  | Some L =>
      let L' := {| lock_id := lock_id L; lock_locked := true; lock_key := Some key;
                   lock_client := lock_client L; lock_shavaluator := lock_shavaluator L;
                   lock_timeout := lock_timeout L; lock_retries := lock_retries L;
                   lock_delay := lock_delay L |} in
      set_acquiredLocks <[lock_id L := l]> (set_locks <[l := L']> σ)
  end.

(** A key as JavaScript prints it: [null] gives "null". *)
Definition key_arg (key : option string) : string := default "null" key.

(** The callback passed to [then] in [release] (lines 122-130); [key] is
    the variable captured before the call. *)
Definition release_then (l : ref) (key : option string) (res : jsval) (σ : state)
  : outcome * state :=
  let σ1 :=
    match locks σ !! l with
    | None => σ
    | Some L =>
        let L' := {| lock_id := lock_id L; lock_locked := false; lock_key := None;
                     lock_client := lock_client L; lock_shavaluator := lock_shavaluator L;
                     lock_timeout := lock_timeout L; lock_retries := lock_retries L;
                     lock_delay := lock_delay L |} in
        set_locks <[l := L']> σ
    end in
  if negb (truthy res) then
    (Rejected (LockReleaseError ("Lock on " +:+ key_arg key +:+ " has expired")), σ1)
  else (Resolved, σ1).

(** [promise.nodeify(fn)]: with a callback, the callback is called with the
    error or with nothing; the promise settles the same way either way. *)
Definition nodeify (fn : bool) (o : outcome) (σ : state) : state :=
  if fn then
    match o with
    | Resolved => log (EvCallback None) σ
    | Rejected e => log (EvCallback (Some e)) σ
    | Threw _ => σ
    end
  else σ.

(** [this] is no Lock: the first property access throws. *)
Definition not_a_lock : js_error := ExternalError "TypeError".

(** ** acquire, release, _attemptLock *)

Section Operations.

Context {World : Type} `{!StoreAdapter World}.

(** [Lock.prototype._attemptLock].  The recursion of the source has no
    measure of its own; [fuel] bounds the number of calls, and the first
    component of the result is [None] when the bound is reached before
    the promise settles. *)
Fixpoint _attemptLock (fuel : nat) (l : ref) (key : string) (retries : Z)
    (σ : state) (w : World) : option outcome * state * World :=
  match fuel with
  | O => (None, σ, w)
  | S fuel' =>
      match locks σ !! l with
      | None => (Some (Threw not_a_lock), σ, w)
      | Some L =>
          let σ1 := log (EvSetAsync (lock_client L) key (lock_id L) (lock_timeout L)) σ in
          match client_setAsync (lock_client L) key (lock_id L) (lock_timeout L) w with
          | (Failed e, w1) => (Some (Rejected e), σ1, w1)
          | (Fulfilled res, w1) =>
              match attemptLock_then key retries res with
              | AttemptThrow e => (Some (Rejected e), σ1, w1)
              | AttemptResolve => (Some Resolved, σ1, w1)
              | AttemptRetry retries' =>
                  let ms := lock_delay L in
                  _attemptLock fuel' l key retries'
                    (log (EvDelay ms) σ1) (promise_delay ms w1)
              end
          end
      end
  end.

(** [Lock.prototype.acquire]; [fn] says whether a callback was passed. *)
Definition acquire (fuel : nat) (l : ref) (key : string) (fn : bool)
    (σ : state) (w : World) : option outcome * state * World :=
  match locks σ !! l with
  | None => (Some (Threw not_a_lock), σ, w)
  | Some L =>
      if lock_locked L then
        (Some (Rejected (LockAcquisitionError "Lock already held")), σ, w)
      else
        match _attemptLock fuel l key (lock_retries L) σ w with
        | (None, σ1, w1) => (None, σ1, w1)
        | (Some Resolved, σ1, w1) =>
            (Some Resolved, nodeify fn Resolved (acquire_then l key σ1), w1)
        | (Some (Rejected e), σ1, w1) =>
            (Some (Rejected e), nodeify fn (Rejected e) σ1, w1)
        | (Some (Threw e), σ1, w1) => (Some (Threw e), σ1, w1)
        end
  end.

(** [Lock.prototype.release]. *)
Definition release (l : ref) (fn : bool) (σ : state) (w : World)
  : outcome * state * World :=
  match locks σ !! l with
  | None => (Threw not_a_lock, σ, w)
  | Some L =>
      let key := lock_key L in
      if negb (lock_locked L) then
        (Threw (LockReleaseError "Lock has not been acquired"), σ, w)
      else
        let σ1 := log (EvExecAsync (lock_shavaluator L) "delifequal"
                         [key_arg key] [lock_id L]) σ in
        match shaval_execAsync (lock_shavaluator L) "delifequal"
                [key_arg key] [lock_id L] w with
        | (Failed e, w1) => (Rejected e, nodeify fn (Rejected e) σ1, w1)
        | (Fulfilled res, w1) =>
            let '(o, σ2) := release_then l key res σ1 in
            (o, nodeify fn o σ2, w1)
        end
  end.

End Operations.

(** ** The store itself *)

(** Modelled from the spec: the key-value store is an external collaborator
    (sections 1, 4.2 and 6).  The conditional write sets [key] to [value]
    only if [key] does not exist and answers a success or failure
    indicator ("OK" or null, as Redis does for SET ... NX).  The lease is
    not counted down here: a key may expire at any moment, by [expire]. *)
Definition store_set_nx (key value : string) (s : gmap string string)
  : jsval * gmap string string :=
  match s !! key with
  | Some _ => (JNull, s)
  | None => (JStr "OK", <[key := value]> s)
  end.

(** Modelled from the spec: lib/scripts.js, the text of the script, is not
    among the sources.  Section 6: if the value at KEYS[1] equals ARGV[1],
    delete the key and return 1, else return 0. *)
Definition delifequal (key arg : string) (s : gmap string string)
  : jsval * gmap string string :=
  if decide (s !! key = Some arg) then (JNum 1, delete key s) else (JNum 0, s).

Definition expire (key : string) (s : gmap string string) : gmap string string :=
  delete key s.

(** The adapter of a process that talks to this store alone, over a
    transport that does not fail, with leases that outlast the run; every
    receiver is taken to be a connection to the store, or a Shavaluator on
    one. *)
#[global] Instance store_adapter : StoreAdapter (gmap string string) := {
  client_setAsync _ key id _ s :=
    let '(res, s') := store_set_nx key id s in (Fulfilled res, s');
  shaval_execAsync _ name keys args s :=
    match name, keys, args with
    | "delifequal", [key], [arg] =>
        let '(res, s') := delifequal key arg s in (Fulfilled res, s')
    | _, _, _ => (Failed (ExternalError "script"), s)
    end;
  promise_delay _ s := s;
}.

(** ** Several Locks, one store *)

(** An operation of a Lock that is under way.  A command is applied by the
    store when it is sent; the reply then travels back while the process
    goes on.  (Locks meet in the store only, a call reads nothing but its
    own Lock, and the commands of one connection are applied in the order
    in which they are sent: a run in which the store applies a command some
    time after the call is, for every Lock and for the store, the run in
    which the events of the other Locks that the store saw first come
    before the call.)  [res] is how the promise of the command will settle:
    [Fulfilled] with the answer of the store, or [Failed] when the command
    did not get through or its answer is lost. *)
Inductive task :=
| SetInFlight (key : string) (retries : Z) (res : reply)
| Delaying (key : string) (retries : Z)
| ExecInFlight (key : option string) (res : reply).

#[global] Instance reply_eq_dec : EqDecision reply.
Proof. solve_decision. Defined.
#[global] Instance task_eq_dec : EqDecision task.
Proof. solve_decision. Defined.

(** The process, the store, the operations under way on each Lock (nothing
    in the source keeps a caller from starting one while another is under
    way) and the operations that have settled, in that order.  Callers use
    the promises: no callback is passed. *)
Record system := {
  sys_state : state;
  sys_store : gmap string string;
  sys_tasks : gmap ref (list task);
  sys_settled : list (ref * outcome);
}.

Definition task_of (s : system) (l : ref) : list task := default [] (sys_tasks s !! l).

(** Nothing is under way. *)
Abbreviation Idle := (@nil task).

(** What can happen next: a caller calls [acquire] or [release]; a pending
    reply or timer of a Lock arrives and its callback runs, in any order
    (the callback of [acquire] runs some promises after the reply, more of
    them after a retry, so the answer to a later [release] can take effect
    first); the store drops a key whose lease ran out; the answer to a
    command that the store has applied is lost, and the promise of the
    command will be rejected with [e]; or an action happens while the
    connection is down, and the command it sends does not reach the store:
    its promise will be rejected with [e]. *)
Inductive action :=
| CallAcquire (l : ref) (key : string)
| CallRelease (l : ref)
| SettleAt (l : ref) (i : nat)
| Expire (key : string)
| Lose (l : ref) (i : nat) (e : js_error)
| Offline (a : action) (e : js_error).

(** The oldest pending reply or timer of the Lock arrives. *)
Abbreviation Settle l := (SettleAt l 0%nat).

#[global] Instance action_eq_dec : EqDecision action.
Proof. solve_decision. Defined.

(** An operation of [l] settles with [o]. *)
Definition settle (l : ref) (o : outcome) (σ : state) (s : system) : system :=
  {| sys_state := σ; sys_store := sys_store s;
     sys_tasks := sys_tasks s;
     sys_settled := sys_settled s ++ [(l, o)] |}.

Definition with_tasks (l : ref) (ts : list task) (s : system) : system :=
  {| sys_state := sys_state s; sys_store := sys_store s;
     sys_tasks := <[l := ts]> (sys_tasks s);
     sys_settled := sys_settled s |}.

(** A command on its way to the store: applied and answered, or, with the
    connection down, not applied and failed. *)
Definition transmit (down : option js_error)
    (command : gmap string string → jsval * gmap string string)
    (st : gmap string string) : reply * gmap string string :=
  match down with
  | None => let '(res, st') := command st in (Fulfilled res, st')
  | Some e => (Failed e, st)
  end.

(** The call [client.setAsync(key, this.id, 'PX', this.timeout, 'NX')] of
    [_attemptLock]; [put] says where the operation goes among the ones
    under way. *)
Definition issue_set (down : option js_error) (l : ref) (L : lock_obj) (key : string)
    (retries : Z) (put : task → list task) (s : system) : system :=
  let '(res, st) := transmit down (store_set_nx key (lock_id L)) (sys_store s) in
  {| sys_state := log (EvSetAsync (lock_client L) key (lock_id L) (lock_timeout L))
                    (sys_state s);
     sys_store := st;
     sys_tasks := <[l := put (SetInFlight key retries res)]> (sys_tasks s);
     sys_settled := sys_settled s |}.

(** One action; [down] is the error of the connection if it is down. *)
Fixpoint step_on (down : option js_error) (a : action) (s : system) : system :=
  match a with
  | CallAcquire l key =>
      match locks (sys_state s) !! l with
      | Some L =>
          if lock_locked L then
            settle l (Rejected (LockAcquisitionError "Lock already held")) (sys_state s) s
          else issue_set down l L key (lock_retries L) (λ t, (task_of s l ++ [t])%list) s
      | None => settle l (Threw not_a_lock) (sys_state s) s
      end
  | CallRelease l =>
      match locks (sys_state s) !! l with
      | Some L =>
          let key := lock_key L in
          if negb (lock_locked L) then
            settle l (Threw (LockReleaseError "Lock has not been acquired")) (sys_state s) s
          else
            let '(res, st) :=
              transmit down (delifequal (key_arg key) (lock_id L)) (sys_store s) in
            {| sys_state := log (EvExecAsync (lock_shavaluator L) "delifequal"
                                   [key_arg key] [lock_id L]) (sys_state s);
               sys_store := st;
               sys_tasks := <[l := (task_of s l ++ [ExecInFlight key res])%list]> (sys_tasks s);
               sys_settled := sys_settled s |}
      | None => settle l (Threw not_a_lock) (sys_state s) s
      end
  | SettleAt l i =>
      match locks (sys_state s) !! l, task_of s l !! i with
      | Some L, Some t =>
          let rest := with_tasks l (delete i (task_of s l)) s in
          match t with
          | SetInFlight key retries (Failed e) => settle l (Rejected e) (sys_state s) rest
          | SetInFlight key retries (Fulfilled res) =>
              match attemptLock_then key retries res with
              | AttemptThrow e => settle l (Rejected e) (sys_state s) rest
              | AttemptResolve => settle l Resolved (acquire_then l key (sys_state s)) rest
              | AttemptRetry retries' =>
                  {| sys_state := log (EvDelay (lock_delay L)) (sys_state s);
                     sys_store := sys_store s;
                     sys_tasks := <[l := <[i := Delaying key retries']> (task_of s l)]>
                                    (sys_tasks s);
                     sys_settled := sys_settled s |}
              end
          | Delaying key retries =>
              issue_set down l L key retries (λ t, <[i := t]> (task_of s l)) s
          | ExecInFlight key (Failed e) => settle l (Rejected e) (sys_state s) rest
          | ExecInFlight key (Fulfilled res) =>
              let '(o, σ) := release_then l key res (sys_state s) in
              settle l o σ rest
          end
      | _, _ => s
      end
  | Expire key =>
      {| sys_state := sys_state s; sys_store := expire key (sys_store s);
         sys_tasks := sys_tasks s; sys_settled := sys_settled s |}
  | Lose l i e =>
      match task_of s l !! i with
      | Some (SetInFlight key retries _) =>
          with_tasks l (<[i := SetInFlight key retries (Failed e)]> (task_of s l)) s
      | Some (ExecInFlight key _) =>
          with_tasks l (<[i := ExecInFlight key (Failed e)]> (task_of s l)) s
      | _ => s
      end
  | Offline a' e => step_on (Some e) a' s
  end.

Definition step (a : action) (s : system) : system := step_on None a s.

Definition run (acts : list action) (s : system) : system := foldl (flip step) s acts.

(** The Lock is in the state the specification calls locked: the flag is
    set for [key] and no operation is under way. *)
Definition in_locked_state (s : system) (l : ref) (key : string) : Prop :=
  ∃ L, locks (sys_state s) !! l = Some L ∧ lock_locked L = true ∧
       lock_key L = Some key ∧ task_of s l = Idle.

(** A system before any operation: no Lock holds anything, nothing is under
    way, and the Locks have different ids. *)
Definition initial (s : system) : Prop :=
  sys_tasks s = ∅ ∧
  (∀ l L, locks (sys_state s) !! l = Some L → lock_locked L = false) ∧
  (∀ l1 l2 L1 L2, locks (sys_state s) !! l1 = Some L1 →
                  locks (sys_state s) !! l2 = Some L2 →
                  lock_id L1 = lock_id L2 → l1 = l2).

(** Constructions on any connections, one after the other. *)
Fixpoint construct_seq (uuid_v1 : nat → string) (calls : list (ref * option options))
    (σ : state) : option (list ref * state) :=
  match calls with
  | [] => Some ([], σ)
  | (client, opts) :: rest =>
      '(l, σ1) ← Lock uuid_v1 client opts σ;
      '(ls, σ2) ← construct_seq uuid_v1 rest σ1;
      Some (l :: ls, σ2)
  end.

(** ** Vocabulary of the statements *)

(** The state with more calls in its trace and nothing else changed. *)
Definition log_all (evs : list event) (σ : state) : state :=
  {| locks := locks σ; clients := clients σ; shavals := shavals σ;
     _defaults := _defaults σ; _promisifiedClients := _promisifiedClients σ;
     _shavaluators := _shavaluators σ; _acquiredLocks := _acquiredLocks σ;
     uuid_count := uuid_count σ; trace := trace σ ++ evs |}.

Definition is_setAsync (e : event) : bool :=
  match e with EvSetAsync _ _ _ _ => true | _ => false end.
Definition is_delay (e : event) : bool :=
  match e with EvDelay _ => true | _ => false end.
Definition is_callback (e : event) : bool :=
  match e with EvCallback _ => true | _ => false end.

Definition count (p : event → bool) (evs : list event) : nat :=
  length (List.filter p evs).

(** The calls of [n + 1] conditional writes with a sleep of [ms] between
    two consecutive ones. *)
Fixpoint retry_trace (client : jsobj) (key id : string) (px ms : Z) (n : nat) : list event :=
  match n with
  | O => [EvSetAsync client key id px]
  | S n' => EvSetAsync client key id px :: EvDelay ms :: retry_trace client key id px ms n'
  end.

(** The outside world just before conditional write number [k] (counting
    from 0), the earlier ones having been refused. *)
Fixpoint world_before {World : Type} `{!StoreAdapter World}
    (client : jsobj) (key id : string) (px ms : Z) (k : nat) (w : World) : World :=
  match k with
  | O => w
  | S k' =>
      world_before client key id px ms k'
        (promise_delay ms (client_setAsync client key id px w).2)
  end.

(** The first [k] conditional writes are refused: each promise is fulfilled
    with a falsy value. *)
Definition refused_before {World : Type} `{!StoreAdapter World}
    (client : jsobj) (key id : string) (px ms : Z) (k : nat) (w : World) : Prop :=
  ∀ i, (i < k)%nat →
    ∃ res, (client_setAsync client key id px (world_before client key id px ms i w)).1
             = Fulfilled res ∧ truthy res = false.

(** The conditional write is refused whatever is asked: the promise is
    fulfilled with a falsy value. *)
Definition always_rejects {World : Type} `{!StoreAdapter World} : Prop :=
  ∀ c key id px w, ∃ res, (client_setAsync c key id px w).1 = Fulfilled res ∧ truthy res = false.

(** [σ'] is [σ] but for calls of the caller's callback. *)
Definition same_but_callbacks (σ σ' : state) : Prop :=
  ∃ evs, σ' = log_all evs σ ∧ Forall (λ e, is_callback e = true) evs.

(** A failure of the error class the specification calls AlreadyHeld,
    thrown or delivered through the promise. *)
Definition already_held_failure (o : option outcome) : Prop :=
  ∃ msg, o = Some (Threw (LockError AlreadyHeldError msg)) ∨
         o = Some (Rejected (LockError AlreadyHeldError msg)).

(** A Lock with the flag cleared and no key, otherwise as [L]. *)
Definition cleared (L : lock_obj) : lock_obj :=
  {| lock_id := lock_id L; lock_locked := false; lock_key := None;
     lock_client := lock_client L; lock_shavaluator := lock_shavaluator L;
     lock_timeout := lock_timeout L; lock_retries := lock_retries L;
     lock_delay := lock_delay L |}.

(** The async methods of a connection after the [forEach] of
    [_setupClient] has looked at [command]. *)
Definition with_async (am : gmap string method_val) (command : string)
  : gmap string method_val :=
  match am !! (command +:+ "Async") with
  | Some _ => am
  | None => <[command +:+ "Async" := Promisified command]> am
  end.

(** The calls of [Promise.promisify] that [forEach] makes on a connection
    with the async methods [am]. *)
Fixpoint promisify_events (client : ref) (am : gmap string method_val)
    (commands : list string) : list event :=
  match commands with
  | [] => []
  | m :: rest =>
      match am !! (m +:+ "Async") with
      | Some _ => promisify_events client am rest
      | None => EvPromisify client m :: promisify_events client (with_async am m) rest
      end
  end.

(** The [connection_id] a connection has once [_setupClient] is through
    with it, when the next identifier of [uuid.v1] is the [n]-th. *)
Definition identity_at (uuid_v1 : nat → string) (n : nat) (co : client_obj) : jsval :=
  if truthy (connection_id co) then connection_id co else JStr (uuid_v1 n).

(** The connection is in both registries under its [connection_id]. *)
Definition registered (client : ref) (σ : state) (r sh : ref) : Prop :=
  ∃ co, clients σ !! client = Some co ∧ truthy (connection_id co) = true ∧
        _promisifiedClients σ !! to_key (connection_id co) = Some r ∧
        _shavaluators σ !! to_key (connection_id co) = Some sh.

(** The Locks of a process have different ids. *)
Definition distinct_ids (σ : state) : Prop :=
  ∀ l1 l2 L1 L2, locks σ !! l1 = Some L1 → locks σ !! l2 = Some L2 →
                 lock_id L1 = lock_id L2 → l1 = l2.

(** The operation is one of an [acquire]. *)
Definition acquiring (t : task) : bool :=
  match t with SetInFlight _ _ _ | Delaying _ _ => true | _ => false end.

(** The Lock counts on the store having its id at [K]: it is in the locked
    state for [K]; or the store has granted it [K] and the reply is on its
    way; or its flag is set for [K] and the [release] it called did not get
    through. *)
Definition holds_in (L : lock_obj) (ts : list task) (K : string) : bool :=
  match ts with
  | [] => lock_locked L && bool_decide (lock_key L = Some K)
  | [SetInFlight key _ (Fulfilled res)] => bool_decide (key = K) && truthy res
  | [ExecInFlight _ (Failed _)] => lock_locked L && bool_decide (lock_key L = Some K)
  | _ => false
  end.

(** The action keeps to the rules under which [K] is held by one Lock at a
    time: a caller starts an operation on a Lock only when none is under
    way on it; [K] does not expire; and the answer to a [release] of [K]
    that the store has applied is not lost. *)
Fixpoint disciplined (K : string) (s : system) (a : action) : bool :=
  match a with
  | CallAcquire l _ | CallRelease l => bool_decide (task_of s l = Idle)
  | SettleAt _ _ => true
  | Expire key => bool_decide (key ≠ K)
  | Lose l i _ =>
      match task_of s l !! i with
      | Some (ExecInFlight key (Fulfilled _)) => bool_decide (key ≠ Some K)
      | _ => true
      end
  | Offline a' _ => disciplined K s a'
  end.

(** Every action of the run keeps to these rules. *)
Fixpoint orderly (K : string) (acts : list action) (s : system) : Prop :=
  match acts with
  | [] => True
  | a :: rest => disciplined K s a = true ∧ orderly K rest (step a s)
  end.

(** What holds of a system along an orderly run. *)
Definition exclusive (K : string) (s : system) : Prop :=
  distinct_ids (sys_state s) ∧
  (∀ l, (length (task_of s l) ≤ 1)%nat) ∧
  (∀ l L t, locks (sys_state s) !! l = Some L → t ∈ task_of s l →
            acquiring t = true → lock_locked L = false) ∧
  (∀ l L key res, locks (sys_state s) !! l = Some L →
                  ExecInFlight key res ∈ task_of s l → lock_key L = key) ∧
  (∀ l L, locks (sys_state s) !! l = Some L →
          holds_in L (task_of s l) K = true → sys_store s !! K = Some (lock_id L)).

(** A call the constructor makes: on bluebird or on redis-evalsha, never on
    the store. *)
Definition is_setup_event (e : event) : bool :=
  match e with
  | EvPromisify _ _ | EvNewShavaluator _ | EvPromisifyAll _ | EvAddScript _ _ => true
  | _ => false
  end.

(** [L] after the callback of [acquire]: flag set, key recorded. *)
Definition locked_on (L : lock_obj) (key : string) : lock_obj :=
  {| lock_id := lock_id L; lock_locked := true; lock_key := Some key;
     lock_client := lock_client L; lock_shavaluator := lock_shavaluator L;
     lock_timeout := lock_timeout L; lock_retries := lock_retries L;
     lock_delay := lock_delay L |}.

(** Every Lock carries an identifier that [uuid.v1] has handed out. *)
Definition ids_drawn (uuid_v1 : nat → string) (σ : state) : Prop :=
  ∀ l L, locks σ !! l = Some L → ∃ n, (n < uuid_count σ)%nat ∧ lock_id L = uuid_v1 n.

(** The bookkeeping of the Locks hangs together: ids differ, and a Lock
    whose flag is set has a key and is in [Lock._acquiredLocks] under its
    id. *)
Definition coherent (σ : state) : Prop :=
  distinct_ids σ ∧
  ∀ l L, locks σ !! l = Some L → lock_locked L = true →
         is_Some (lock_key L) ∧ _acquiredLocks σ !! lock_id L = Some l.

(** *** Concrete inputs *)

Definition demo_uuid (n : nat) : string := "uuid-" +:+ pretty n.

(** A connection as the client library hands it over. *)
Definition raw_client : client_obj :=
  {| connection_id := JUndefined; async_methods := ∅ |}.

(** An adapter whose store is held by someone else for good. *)
Definition contended_adapter : StoreAdapter unit :=
  {| client_setAsync _ _ _ _ w := (Fulfilled JNull, w);
     shaval_execAsync _ _ _ _ w := (Fulfilled (JNum 0), w);
     promise_delay _ w := w |}.

(** An adapter whose store refuses the first conditional write and whose
    connection is down from then on; the world counts the calls. *)
Definition flaky_adapter : StoreAdapter nat :=
  {| client_setAsync _ _ _ _ w :=
       (match w with O => Fulfilled JNull | _ => Failed (ExternalError "ECONNRESET") end, S w);
     shaval_execAsync _ _ _ _ w := (Failed (ExternalError "ECONNRESET"), S w);
     promise_delay _ w := w |}.

(** A process with one connection and the Locks built on it with the given
    options, none of them used yet. *)
Definition process_with (optss : list (option options)) : state :=
  match construct_all demo_uuid 0%nat optss (initial_state {[ 0%nat := raw_client ]}) with
  | Some (_, σ) => σ
  | None => initial_state ∅
  end.

Definition retrying (n : Z) : option options :=
  Some {| opt_timeout := None; opt_retries := Some n; opt_delay := Some 5 |}.

(** The Lock that [process_with [retrying n]] holds at address 0. *)
Definition retrying_lock (n : Z) : lock_obj :=
  {| lock_id := "uuid-0"; lock_locked := false; lock_key := None;
     lock_client := 0%nat; lock_shavaluator := 0%nat;
     lock_timeout := 10000; lock_retries := n; lock_delay := 5 |}.

(** Two Locks on one connection and an empty store. *)
Definition two_locks : system :=
  {| sys_state := process_with [None; None]; sys_store := ∅; sys_tasks := ∅; sys_settled := [] |}.

(** Lock 0 after a successful [acquire("K")] against the empty store. *)
Definition held_by_0 : state * gmap string string :=
  let '(_, σ, w) := acquire 1 0%nat "K" false (process_with [None; None]) (∅ : gmap string string) in
  (σ, w).

(** An adapter whose store refuses the first conditional write and grants
    the next ones; the script always deletes.  The world counts the
    conditional writes. *)
Definition busy_once_adapter : StoreAdapter nat :=
  {| client_setAsync _ _ _ _ w :=
       (match w with O => Fulfilled JNull | _ => Fulfilled (JStr "OK") end, S w);
     shaval_execAsync _ _ _ _ w := (Fulfilled (JNum 1), w);
     promise_delay _ w := w |}.

(** Two connection objects that carry the same identity, one as a number
    and one as a string. *)
Definition twin_clients : gmap ref client_obj :=
  {[ 0%nat := {| connection_id := JNum 7; async_methods := ∅ |};
     1%nat := {| connection_id := JStr "7"; async_methods := ∅ |} ]}.

(** A process in which the first of the twins has a Lock. *)
Definition twin_process : state :=
  match Lock demo_uuid 0%nat None (initial_state twin_clients) with
  | Some (_, σ) => σ
  | None => initial_state ∅
  end.

(** Lock 0 of [process_with [None]] with its flag set for "K". *)
Definition held_lock : lock_obj :=
  {| lock_id := "uuid-0"; lock_locked := true; lock_key := Some "K";
     lock_client := 0%nat; lock_shavaluator := 0%nat;
     lock_timeout := 10000; lock_retries := 0; lock_delay := 100 |}.

(** An adapter whose script call fails in transport once and goes through
    afterwards; the world counts the script calls. *)
Definition recovering_adapter : StoreAdapter nat :=
  {| client_setAsync _ _ _ _ w := (Fulfilled (JStr "OK"), w);
     shaval_execAsync _ _ _ _ w :=
       (match w with O => Failed (ExternalError "ETIMEDOUT") | _ => Fulfilled (JNum 1) end,
        S w);
     promise_delay _ w := w |}.



(** A connection whose [connection_id] is the number 0. *)
Definition zero_client : client_obj :=
  {| connection_id := JNum 0; async_methods := ∅ |}.


(** The system in which Lock 0 took "K", the lease ran out, and Lock 1 took
    "K". *)
Definition after_expiry : system :=
  run [CallAcquire 0%nat "K"; Settle 0%nat; Expire "K";
       CallAcquire 1%nat "K"; Settle 1%nat] two_locks.

(** * Properties *)

Example to_key_num : to_key (JNum (-5)) = "-5".
Proof. reflexivity. Qed.

(** Property keys of large numbers, as [String(n)] gives them. *)
Example to_key_large :
  to_key (JNum (2 ^ 53)) = "9007199254740992" ∧
  to_key (JNum (2 ^ 53 + 1)) = "9007199254740992" ∧
  to_key (JNum (2 ^ 63)) = "9223372036854776000" ∧
  to_key (JNum (2 ^ 64)) = "18446744073709552000" ∧
  to_key (JNum 123456789012345678901) = "123456789012345680000" ∧
  to_key (JNum (10 ^ 21)) = "1e+21" ∧
  to_key (JNum (- 2 ^ 70)) = "-1.1805916207174113e+21" ∧
  to_key (JNum (10 ^ 23)) = "1e+23" ∧
  to_key (JNum ((2 ^ 53 - 1) * 2 ^ 971)) = "1.7976931348623157e+308" ∧
  to_key (JNum (2 ^ 1024)) = "Infinity".
Proof. split_and!; vm_compute; reflexivity. Qed.

Lemma log_all_nil σ : log_all [] σ = σ.
Proof. destruct σ; unfold log_all; simpl. by rewrite app_nil_r. Qed.

Lemma log_log_all e evs σ : log_all evs (log e σ) = log_all (e :: evs) σ.
Proof. unfold log_all, log; simpl. by rewrite <- app_assoc. Qed.

Lemma log_all_log_all evs1 evs2 σ :
  log_all evs2 (log_all evs1 σ) = log_all (evs1 ++ evs2) σ.
Proof. unfold log_all; simpl. by rewrite <- app_assoc. Qed.

Lemma log_is_log_all e σ : log e σ = log_all [e] σ.
Proof. reflexivity. Qed.


Lemma count_retry_trace_set c key id px ms n :
  count is_setAsync (retry_trace c key id px ms n) = S n.
Proof. induction n as [|n IH]; [done|]. unfold count in *; simpl. by rewrite IH. Qed.

Lemma count_retry_trace_delay c key id px ms n :
  count is_delay (retry_trace c key id px ms n) = n.
Proof. induction n as [|n IH]; [done|]. unfold count in *; simpl. by rewrite IH. Qed.

Lemma retry_trace_delays c key id px ms n ev :
  ev ∈ retry_trace c key id px ms n → is_delay ev = true → ev = EvDelay ms.
Proof.
  induction n as [|n IH]; simpl; intros Hin Hdelay.
  - apply list_elem_of_singleton in Hin. by subst.
  - apply elem_of_cons in Hin as [->|Hin]; [done|].
    apply elem_of_cons in Hin as [->|Hin]; [done|]. by apply IH.
Qed.

Section Single_lock.

Context {World : Type} `{!StoreAdapter World}.
Implicit Types (σ : state) (w : World) (l : ref) (L : lock_obj).

(** ** release *)

(** C7.  On a Lock whose flag is not set, [release] throws a
    LockReleaseError before it calls anything: the state of the process
    (the Lock, the registries, the trace of calls) and the world outside
    (the store) are as they were. *)
Theorem release_not_locked_throws σ w l L fn :
  locks σ !! l = Some L →
  lock_locked L = false →
  release l fn σ w =
    (Threw (LockReleaseError "Lock has not been acquired"), σ, w).
Proof.
  intros Hl Hunlocked. unfold release. by rewrite Hl, Hunlocked.
Qed.

(** What [release] does to the process when the script answers [res]:
    one call is logged and the callback of [then] runs. *)
Lemma release_fulfilled σ w l L fn res w1 :
  locks σ !! l = Some L →
  lock_locked L = true →
  shaval_execAsync (lock_shavaluator L) "delifequal"
    [key_arg (lock_key L)] [lock_id L] w = (Fulfilled res, w1) →
  let σ1 := log (EvExecAsync (lock_shavaluator L) "delifequal"
                   [key_arg (lock_key L)] [lock_id L]) σ in
  release l fn σ w =
    ((release_then l (lock_key L) res σ1).1,
     nodeify fn (release_then l (lock_key L) res σ1).1
       (release_then l (lock_key L) res σ1).2, w1).
Proof.
  intros Hl Hlocked Hexec. unfold release. rewrite Hl, Hlocked, Hexec. simpl.
  by destruct (release_then _ _ _ _).
Qed.

Lemma nodeify_locks fn o σ : locks (nodeify fn o σ) = locks σ.
Proof. by destruct fn, o. Qed.

Lemma nodeify_acquiredLocks fn o σ : _acquiredLocks (nodeify fn o σ) = _acquiredLocks σ.
Proof. by destruct fn, o. Qed.

(** C5.  On a locked Lock, when the script answers with a falsy value
    (0: nothing deleted), [release] ends in a LockReleaseError whose
    message names the key, and the Lock has its flag cleared and its key
    set to null. *)
Theorem release_noop_fails_and_clears σ w l L fn res w1 :
  locks σ !! l = Some L →
  lock_locked L = true →
  shaval_execAsync (lock_shavaluator L) "delifequal"
    [key_arg (lock_key L)] [lock_id L] w = (Fulfilled res, w1) →
  truthy res = false →
  ∃ σ', release l fn σ w =
          (Rejected (LockReleaseError
                       ("Lock on " +:+ key_arg (lock_key L) +:+ " has expired")),
           σ', w1) ∧
        locks σ' !! l = Some (cleared L) ∧
        (∀ l', l' ≠ l → locks σ' !! l' = locks σ !! l').
Proof.
  intros Hl Hlocked Hexec Hres.
  rewrite (release_fulfilled _ _ _ _ _ _ _ Hl Hlocked Hexec).
  unfold release_then. simpl. rewrite Hl, Hres. simpl.
  eexists; split; [reflexivity|].
  rewrite nodeify_locks. simpl. split.
  - by rewrite lookup_insert_eq.
  - intros l' Hne. by rewrite lookup_insert_ne.
Qed.

(** [release] never touches [Lock._acquiredLocks]. *)
Lemma release_keeps_acquiredLocks σ w l fn :
  _acquiredLocks (release l fn σ w).1.2 = _acquiredLocks σ.
Proof.
  unfold release. destruct (locks σ !! l) as [L|] eqn:Hl; [|done].
  destruct (lock_locked L); simpl; [|done].
  destruct (shaval_execAsync _ _ _ _ _) as [[res|e] w1]; simpl.
  - unfold release_then; simpl. rewrite Hl.
    destruct (truthy res); simpl; by rewrite nodeify_acquiredLocks.
  - by rewrite nodeify_acquiredLocks.
Qed.

(** ** acquire *)

(** C4, as the code has it.  On a Lock whose flag is set, [acquire]
    returns a promise rejected with a LockAcquisitionError of message
    "Lock already held", whatever the key; the store is not called, the
    world outside is as it was, and so is the process: its Locks, its
    connections, its registries and the calls it has made (calls of the
    caller's callback apart, on which the statement is silent). *)
Theorem acquire_locked_rejects σ w l L key fn fuel :
  locks σ !! l = Some L →
  lock_locked L = true →
  ∃ σ',
    acquire fuel l key fn σ w =
      (Some (Rejected (LockAcquisitionError "Lock already held")), σ', w) ∧
    same_but_callbacks σ σ'.
Proof.
  intros Hl Hlocked. exists σ. unfold acquire. rewrite Hl, Hlocked. split; [done|].
  exists []. by rewrite log_all_nil.
Qed.

(** One call of [_attemptLock] whose conditional write fails in
    transport. *)
Lemma _attemptLock_failed σ w l L key retries fuel e w1 :
  locks σ !! l = Some L →
  client_setAsync (lock_client L) key (lock_id L) (lock_timeout L) w = (Failed e, w1) →
  _attemptLock (S fuel) l key retries σ w =
    (Some (Rejected e),
     log (EvSetAsync (lock_client L) key (lock_id L) (lock_timeout L)) σ, w1).
Proof. intros Hl Hset. simpl. by rewrite Hl, Hset. Qed.

(** One call of [_attemptLock] whose conditional write goes through. *)
Lemma _attemptLock_granted σ w l L key retries fuel res w1 :
  locks σ !! l = Some L →
  client_setAsync (lock_client L) key (lock_id L) (lock_timeout L) w = (Fulfilled res, w1) →
  truthy res = true →
  _attemptLock (S fuel) l key retries σ w =
    (Some Resolved,
     log (EvSetAsync (lock_client L) key (lock_id L) (lock_timeout L)) σ, w1).
Proof.
  intros Hl Hset Hres. simpl. rewrite Hl, Hset.
  unfold attemptLock_then. by rewrite Hres.
Qed.

(** One call of [_attemptLock] whose conditional write is refused while
    retries remain: sleep, then the call with one retry less. *)
Lemma _attemptLock_retry σ w l L key retries fuel res w1 :
  locks σ !! l = Some L →
  client_setAsync (lock_client L) key (lock_id L) (lock_timeout L) w = (Fulfilled res, w1) →
  truthy res = false →
  retries ≠ 0 →
  _attemptLock (S fuel) l key retries σ w =
    _attemptLock fuel l key (retries - 1)
      (log (EvDelay (lock_delay L))
         (log (EvSetAsync (lock_client L) key (lock_id L) (lock_timeout L)) σ))
      (promise_delay (lock_delay L) w1).
Proof.
  intros Hl Hset Hres Hr. simpl. rewrite Hl, Hset.
  unfold attemptLock_then. rewrite Hres. simpl.
  by destruct (Z.eqb_spec retries 0).
Qed.

(** One call of [_attemptLock] whose conditional write is refused with no
    retry left. *)
Lemma _attemptLock_exhausted σ w l L key fuel res w1 :
  locks σ !! l = Some L →
  client_setAsync (lock_client L) key (lock_id L) (lock_timeout L) w = (Fulfilled res, w1) →
  truthy res = false →
  _attemptLock (S fuel) l key 0 σ w =
    (Some (Rejected (LockAcquisitionError ("Could not acquire lock on " +:+ key))),
     log (EvSetAsync (lock_client L) key (lock_id L) (lock_timeout L)) σ, w1).
Proof.
  intros Hl Hset Hres. simpl. rewrite Hl, Hset.
  unfold attemptLock_then. by rewrite Hres.
Qed.

End Single_lock.

Section Retry_loop.

Context {World : Type} `{!StoreAdapter World}.
Implicit Types (σ : state) (w : World) (l : ref) (L : lock_obj).

Lemma always_rejects_inv c key id px w :
  always_rejects →
  ∃ res, client_setAsync c key id px w
           = (Fulfilled res, (client_setAsync c key id px w).2) ∧
         truthy res = false.
Proof.
  intros Hrej. destruct (Hrej c key id px w) as (res & Hres & Hfalsy).
  exists res. split; [|done].
  destruct (client_setAsync c key id px w) as [r w1]; simpl in *. by subst.
Qed.

(** With a retry count that is not negative, the loop ends, whatever the
    store answers. *)
Lemma _attemptLock_settles (n : nat) : ∀ σ w l key (fuel : nat),
  (n < fuel)%nat →
  ∃ o evs w', _attemptLock fuel l key (Z.of_nat n) σ w = (Some o, log_all evs σ, w') ∧
              (count is_setAsync evs ≤ S n)%nat.
Proof.
  induction n as [|n IH]; intros σ w l key fuel Hfuel;
    (destruct fuel as [|fuel]; [lia|]);
    (destruct (locks σ !! l) as [L|] eqn:Hl;
      [|exists (Threw not_a_lock), [], w; simpl; rewrite Hl, log_all_nil;
        split; [done|unfold count; simpl; lia]]);
    destruct (client_setAsync (lock_client L) key (lock_id L) (lock_timeout L) w)
      as [[res|e] w1] eqn:Hset;
    try (rewrite (_attemptLock_failed _ _ _ _ _ _ _ _ _ Hl Hset);
         eexists _, [_], _; split; [reflexivity|unfold count; simpl; lia]);
    (destruct (truthy res) eqn:Hres;
      [rewrite (_attemptLock_granted _ _ _ _ _ _ _ _ _ Hl Hset Hres);
       eexists _, [_], _; split; [reflexivity|unfold count; simpl; lia]|]).
  - change (Z.of_nat 0) with 0.
    rewrite (_attemptLock_exhausted _ _ _ _ _ _ _ _ Hl Hset Hres).
    eexists _, [_], _; split; [reflexivity|unfold count; simpl; lia].
  - rewrite (_attemptLock_retry _ _ _ _ _ _ _ _ _ Hl Hset Hres) by lia.
    replace (Z.of_nat (S n) - 1) with (Z.of_nat n) by lia.
    destruct (IH (log (EvDelay (lock_delay L))
                    (log (EvSetAsync (lock_client L) key (lock_id L) (lock_timeout L)) σ))
                (promise_delay (lock_delay L) w1) l key fuel) as (o & evs & w' & Hrun & Hcount);
      [lia|].
    rewrite Hrun, !log_log_all. eexists _, _, _. split; [reflexivity|].
    unfold count in *; simpl. lia.
Qed.

(** With a negative retry count and a store that refuses every write, the
    loop goes on for as long as it is run. *)
Lemma _attemptLock_runs_on (fuel : nat) : ∀ σ w l L key retries,
  locks σ !! l = Some L →
  always_rejects →
  retries < 0 →
  ∃ evs w', _attemptLock fuel l key retries σ w = (None, log_all evs σ, w') ∧
            count is_setAsync evs = fuel.
Proof.
  induction fuel as [|fuel IH]; intros σ w l L key retries Hl Hrej Hneg.
  - exists [], w. simpl. by rewrite log_all_nil.
  - destruct (always_rejects_inv (lock_client L) key (lock_id L) (lock_timeout L) w Hrej)
      as (res & Hset & Hfalsy).
    rewrite (_attemptLock_retry _ _ _ _ _ _ _ _ _ Hl Hset Hfalsy) by lia.
    edestruct (IH (log (EvDelay (lock_delay L))
                  (log (EvSetAsync (lock_client L) key (lock_id L) (lock_timeout L)) σ)))
      as (evs & w' & Hrun & Hcount); [exact Hl|done| |].
    2: { rewrite Hrun, !log_log_all. eexists _, _. split; [reflexivity|].
         unfold count in *; simpl. by rewrite Hcount. }
    lia.
Qed.

(** C9.  Started with a retry count that is a non-negative integer [n],
    [_attemptLock] settles after at most [n + 1] conditional writes,
    whatever the store does.  Started with a negative count against a store
    that refuses every write, it never settles: however many calls are
    allowed, all of them are spent on conditional writes. *)
Theorem attemptLock_settles_iff_nonnegative σ w l key :
  (∀ n fuel : nat, (n < fuel)%nat →
     ∃ o evs w', _attemptLock fuel l key (Z.of_nat n) σ w = (Some o, log_all evs σ, w') ∧
                 (count is_setAsync evs ≤ S n)%nat) ∧
  (∀ L retries (fuel : nat),
     locks σ !! l = Some L → always_rejects → retries < 0 →
     ∃ evs w', _attemptLock fuel l key retries σ w = (None, log_all evs σ, w') ∧
               count is_setAsync evs = fuel).
Proof.
  split.
  - intros n fuel Hfuel. by apply _attemptLock_settles.
  - intros L retries fuel Hl Hrej Hneg. by apply (_attemptLock_runs_on fuel _ _ _ L).
Qed.

(** [k] refused rounds: [k] conditional writes and [k] sleeps, and the loop
    is back at its head with [k] retries less. *)
Lemma _attemptLock_refused_rounds (k : nat) : ∀ σ w l L key retries (fuel : nat),
  locks σ !! l = Some L →
  refused_before (lock_client L) key (lock_id L) (lock_timeout L) (lock_delay L) k w →
  retries < 0 ∨ Z.of_nat k ≤ retries →
  ∃ evs,
    _attemptLock (k + fuel) l key retries σ w =
      _attemptLock fuel l key (retries - Z.of_nat k) (log_all evs σ)
        (world_before (lock_client L) key (lock_id L) (lock_timeout L) (lock_delay L) k w) ∧
    (evs ++ [EvSetAsync (lock_client L) key (lock_id L) (lock_timeout L)])%list =
      retry_trace (lock_client L) key (lock_id L) (lock_timeout L) (lock_delay L) k.
Proof.
  induction k as [|k IH]; intros σ w l L key retries fuel Hl Hrefused Hreach.
  - exists []. rewrite log_all_nil. simpl. split; [|done]. f_equal. lia.
  - destruct (Hrefused 0%nat) as (res & Hres & Hfalsy); [lia|]. simpl in Hres.
    destruct (client_setAsync (lock_client L) key (lock_id L) (lock_timeout L) w)
      as [r w1] eqn:Hset. simpl in Hres. subst r.
    change (S k + fuel)%nat with (S (k + fuel)).
    rewrite (_attemptLock_retry _ _ _ _ _ _ _ _ _ Hl Hset Hfalsy) by lia.
    edestruct (IH (log (EvDelay (lock_delay L))
                    (log (EvSetAsync (lock_client L) key (lock_id L) (lock_timeout L)) σ))
                (promise_delay (lock_delay L) w1) l L key (retries - 1) fuel)
      as (evs & Hrun & Hevs); [exact Hl| |lia|].
    { intros i Hi. destruct (Hrefused (S i)) as (res' & Hres' & Hfalsy'); [lia|].
      simpl in Hres'. rewrite Hset in Hres'. simpl in Hres'. by exists res'. }
    eexists. rewrite Hrun, !log_log_all. simpl. rewrite Hset. simpl. split.
    + f_equal. lia.
    + simpl. by rewrite Hevs.
Qed.

(** C2.  A Lock that is not locked, with [N] retries and a delay of
    [lock_delay L] milliseconds, whose conditional write is refused at
    every attempt: [acquire] makes exactly [N + 1] conditional writes with
    one sleep of the delay between two consecutive ones, after [k] refused
    attempts the loop goes on with [N - k] retries, and the promise is
    rejected with a LockAcquisitionError whose message names the key. *)
Theorem acquire_rejected_every_time σ w l L key fn (N fuel : nat) :
  locks σ !! l = Some L →
  lock_locked L = false →
  lock_retries L = Z.of_nat N →
  refused_before (lock_client L) key (lock_id L) (lock_timeout L) (lock_delay L) (S N) w →
  (N < fuel)%nat →
  let evs := retry_trace (lock_client L) key (lock_id L) (lock_timeout L) (lock_delay L) N in
  let e := LockAcquisitionError ("Could not acquire lock on " +:+ key) in
  acquire fuel l key fn σ w =
    (Some (Rejected e), nodeify fn (Rejected e) (log_all evs σ),
     (client_setAsync (lock_client L) key (lock_id L) (lock_timeout L)
        (world_before (lock_client L) key (lock_id L) (lock_timeout L) (lock_delay L) N w)).2) ∧
  count is_setAsync evs = S N ∧
  count is_delay evs = N ∧
  (∀ ev, ev ∈ evs → is_delay ev = true → ev = EvDelay (lock_delay L)) ∧
  (∀ k f : nat, (k ≤ N)%nat →
     ∃ evs_k,
       _attemptLock (k + f) l key (Z.of_nat N) σ w =
         _attemptLock f l key (Z.of_nat N - Z.of_nat k) (log_all evs_k σ)
           (world_before (lock_client L) key (lock_id L) (lock_timeout L) (lock_delay L) k w) ∧
       (evs_k ++ [EvSetAsync (lock_client L) key (lock_id L) (lock_timeout L)])%list =
         retry_trace (lock_client L) key (lock_id L) (lock_timeout L) (lock_delay L) k).
Proof.
  intros Hl Hunlocked Hretries Hrefused Hfuel evs e.
  assert (∀ k f : nat, (k ≤ N)%nat →
     ∃ evs_k,
       _attemptLock (k + f) l key (Z.of_nat N) σ w =
         _attemptLock f l key (Z.of_nat N - Z.of_nat k) (log_all evs_k σ)
           (world_before (lock_client L) key (lock_id L) (lock_timeout L) (lock_delay L) k w) ∧
       (evs_k ++ [EvSetAsync (lock_client L) key (lock_id L) (lock_timeout L)])%list =
         retry_trace (lock_client L) key (lock_id L) (lock_timeout L) (lock_delay L) k)
    as Hrounds.
  { intros k f Hk. apply (_attemptLock_refused_rounds k σ w l L); [done| |lia].
    intros i Hi. apply Hrefused. lia. }
  split_and!; [|apply count_retry_trace_set|apply count_retry_trace_delay
               |apply retry_trace_delays|exact Hrounds].
  destruct (Hrounds N (fuel - N)%nat) as (evs_N & Hrun & Hevs); [lia|].
  replace (N + (fuel - N))%nat with fuel in Hrun by lia.
  destruct (Hrefused N) as (res & Hres & Hfalsy); [lia|].
  destruct (client_setAsync (lock_client L) key (lock_id L) (lock_timeout L)
              (world_before (lock_client L) key (lock_id L) (lock_timeout L) (lock_delay L) N w))
    as [r w1] eqn:Hset. simpl in Hres. subst r.
  destruct (fuel - N)%nat as [|fuel'] eqn:Hrest; [lia|].
  rewrite Z.sub_diag in Hrun.
  rewrite (_attemptLock_exhausted _ _ _ _ _ _ _ _
             (Hl : locks (log_all evs_N σ) !! l = Some L) Hset Hfalsy) in Hrun.
  unfold acquire. rewrite Hl, Hunlocked, Hretries, Hrun.
  by rewrite log_is_log_all, log_all_log_all, Hevs.
Qed.

(** C6.  The conditional write fails in transport, at the first attempt or
    after any number [k] of refused ones, with whatever number of retries
    left: no further call is made, the promise of [acquire] is rejected
    with that very error, and the Lock, its registration and everything
    else in the process are as before; only the calls made (and the
    callback, if one was given) are added to the trace. *)
Theorem acquire_transport_error_propagates σ w l L key fn (k fuel : nat) e w1 :
  locks σ !! l = Some L →
  lock_locked L = false →
  lock_retries L < 0 ∨ Z.of_nat k ≤ lock_retries L →
  refused_before (lock_client L) key (lock_id L) (lock_timeout L) (lock_delay L) k w →
  client_setAsync (lock_client L) key (lock_id L) (lock_timeout L)
    (world_before (lock_client L) key (lock_id L) (lock_timeout L) (lock_delay L) k w)
    = (Failed e, w1) →
  (k < fuel)%nat →
  ∃ σ', acquire fuel l key fn σ w = (Some (Rejected e), σ', w1) ∧
        σ' = log_all (retry_trace (lock_client L) key (lock_id L) (lock_timeout L)
                        (lock_delay L) k
                      ++ if fn then [EvCallback (Some e)] else []) σ ∧
        locks σ' = locks σ ∧ _acquiredLocks σ' = _acquiredLocks σ.
Proof.
  intros Hl Hunlocked Hreach Hrefused Hfail Hfuel.
  destruct (_attemptLock_refused_rounds k σ w l L key (lock_retries L) (fuel - k)
              Hl Hrefused Hreach) as (evs & Hrun & Hevs).
  replace (k + (fuel - k))%nat with fuel in Hrun by lia.
  destruct (fuel - k)%nat as [|fuel'] eqn:Hrest; [lia|].
  rewrite (_attemptLock_failed _ _ _ _ _ _ _ _ _ (Hl : locks (log_all evs σ) !! l = Some L) Hfail)
    in Hrun.
  unfold acquire. rewrite Hl, Hunlocked, Hrun.
  eexists. split; [reflexivity|].
  rewrite log_is_log_all, log_all_log_all, Hevs.
  destruct fn; simpl; split_and!; try done.
  - unfold log_all, log; simpl. by rewrite <- app_assoc.
  - by rewrite app_nil_r.
Qed.

End Retry_loop.

Lemma with_async_lookup am m :
  with_async am m !! (m +:+ "Async") =
    Some (default (Promisified m) (am !! (m +:+ "Async"))).
Proof.
  unfold with_async. destruct (am !! (m +:+ "Async")) eqn:Ham; simpl; [done|].
  apply lookup_insert_eq.
Qed.

Lemma with_async_lookup_ne am m k :
  k ≠ m +:+ "Async" → with_async am m !! k = am !! k.
Proof.
  intros Hne. unfold with_async. destruct (am !! (m +:+ "Async")); [done|].
  by rewrite lookup_insert_ne.
Qed.

(** The three async methods after the [forEach]: the one that was there is
    kept, the one that was not is the promisified command. *)
Lemma setup_async_lookup am m :
  m ∈ ["get"; "set"; "watch"] →
  foldl with_async am ["get"; "set"; "watch"] !! (m +:+ "Async") =
    Some (default (Promisified m) (am !! (m +:+ "Async"))).
Proof.
  intros Hm. simpl. repeat (apply elem_of_cons in Hm as [->|Hm]).
  - rewrite !with_async_lookup_ne by done. apply with_async_lookup.
  - rewrite with_async_lookup_ne by done. rewrite with_async_lookup.
    by rewrite with_async_lookup_ne by done.
  - rewrite with_async_lookup. by rewrite !with_async_lookup_ne by done.
  - by apply elem_of_nil in Hm.
Qed.

Lemma setup_async_lookup_other am k :
  k ∉ ["getAsync"; "setAsync"; "watchAsync"] →
  foldl with_async am ["get"; "set"; "watch"] !! k = am !! k.
Proof.
  intros Hk. simpl.
  rewrite !with_async_lookup_ne; [done|..]; intros ->; apply Hk; simpl; set_solver.
Qed.



Lemma get_property_own (m : gmap string ref) id r :
  m !! id = Some r → get_property m id = Some (At r).
Proof. unfold get_property. by intros ->. Qed.

Lemma get_property_fresh (m : gmap string ref) id :
  m !! id = None → inherited id = false → get_property m id = None.
Proof. unfold get_property. by intros -> ->. Qed.

Lemma get_property_inherited (m : gmap string ref) id :
  m !! id = None → inherited id = true → get_property m id = Some (Inherited id).
Proof. unfold get_property. by intros -> ->. Qed.

Lemma get_property_None (m : gmap string ref) id :
  get_property m id = None → m !! id = None ∧ inherited id = false.
Proof.
  unfold get_property. destruct (m !! id); [done|]. by destruct (inherited id).
Qed.

(** What is found under a name that is not inherited is a property of the
    map's own. *)
Lemma get_property_Some (m : gmap string ref) id (v : jsobj) :
  get_property m id = Some v → inherited id = false → ∃ r, m !! id = Some r ∧ v = At r.
Proof.
  unfold get_property. destruct (m !! id) as [r|]; intros Hv Hown.
  - injection Hv as <-. by exists r.
  - by rewrite Hown in Hv.
Qed.

Lemma get_property_dom (m : gmap string ref) id (v : jsobj) :
  get_property m id = Some v →
  dom m = (if inherited id then ∅ else {[id]}) ∪ dom m.
Proof.
  intros Hv. destruct (inherited id) eqn:Hown.
  - by rewrite union_empty_l_L.
  - destruct (get_property_Some m id v Hv Hown) as (r & Hr & _).
    apply set_eq. intros k. rewrite elem_of_union, elem_of_singleton, !elem_of_dom.
    split; [by right|]. intros [->|?]; [by eexists|done].
Qed.

Section Construction_properties.

Variable uuid_v1 : nat → string.
Implicit Types (σ : state) (c : ref) (co : client_obj).

Lemma promisify_fold commands : ∀ σ c co,
  clients σ !! c = Some co →
  foldl (promisify_method c) σ commands =
    set_clients <[c := {| connection_id := connection_id co;
                         async_methods := foldl with_async (async_methods co) commands |}]>
      (log_all (promisify_events c (async_methods co) commands) σ).
Proof.
  induction commands as [|m rest IH]; intros σ c co Hc; simpl.
  - rewrite log_all_nil. destruct σ, co; unfold set_clients; simpl in *.
    f_equal. by rewrite insert_id.
  - unfold promisify_method at 2, with_async at 2. rewrite Hc.
    destruct (async_methods co !! (m +:+ "Async")) as [mv|] eqn:Ham.
    + by apply IH.
    + erewrite IH; [|simpl; apply lookup_insert_eq]. simpl.
      unfold set_clients, log_all, log; simpl. f_equal.
      * by rewrite insert_insert_eq.
      * unfold with_async. rewrite Ham. by rewrite <- app_assoc.
Qed.

#[local] Arguments foldl : simpl never.

(** [_setupClient] on a connection whose identity the registry does not
    have. *)
Lemma _setupClient_first σ c co :
  clients σ !! c = Some co →
  let id := identity_at uuid_v1 (uuid_count σ) co in
  _promisifiedClients σ !! to_key id = None →
  inherited (to_key id) = false →
  _setupClient uuid_v1 c σ =
    Some (At c,
      set_promisifiedClients <[to_key id := c]>
        (set_clients <[c := {| connection_id := id;
                              async_methods := foldl with_async (async_methods co)
                                                 ["get"; "set"; "watch"] |}]>
           (log_all (promisify_events c (async_methods co) ["get"; "set"; "watch"])
              (if truthy (connection_id co) then σ
               else set_uuid_count (S (uuid_count σ)) σ)))).
Proof.
  intros Hc id Hfree Hown. unfold _setupClient. rewrite Hc. simpl.
  subst id. unfold identity_at in *.
  destruct (truthy (connection_id co)) eqn:Hid; simpl in *.
  - rewrite (get_property_fresh _ _ Hfree Hown). by erewrite promisify_fold.
  - rewrite (get_property_fresh _ _ Hfree Hown).
    erewrite promisify_fold; [|simpl; apply lookup_insert_eq]. simpl.
    unfold set_promisifiedClients, set_clients, log_all; simpl.
    by rewrite insert_insert_eq.
Qed.

(** [_setupClient] on a connection whose identity the registry has, as a
    property of its own or as an inherited one. *)
Lemma _setupClient_found σ c co (r : jsobj) :
  clients σ !! c = Some co →
  truthy (connection_id co) = true →
  get_property (_promisifiedClients σ) (to_key (connection_id co)) = Some r →
  _setupClient uuid_v1 c σ = Some (r, σ).
Proof.
  intros Hc Hid Hreg. unfold _setupClient. rewrite Hc. simpl.
  rewrite Hid. simpl. by rewrite Hreg.
Qed.

Lemma _setupClient_again σ c co r :
  clients σ !! c = Some co →
  truthy (connection_id co) = true →
  _promisifiedClients σ !! to_key (connection_id co) = Some r →
  _setupClient uuid_v1 c σ = Some (At r, σ).
Proof. intros Hc Hid Hreg. by apply (_setupClient_found σ c co), get_property_own. Qed.

(** [_setupLuaScripts] on a connection for whose identity the registry
    has something. *)
Lemma _setupLuaScripts_found σ c co (sh : jsobj) :
  clients σ !! c = Some co →
  get_property (_shavaluators σ) (to_key (connection_id co)) = Some sh →
  _setupLuaScripts c σ = Some (sh, σ).
Proof.
  intros Hc Hreg. unfold _setupLuaScripts. rewrite Hc. simpl. by rewrite Hreg.
Qed.

Lemma _setupLuaScripts_again σ c co sh :
  clients σ !! c = Some co →
  _shavaluators σ !! to_key (connection_id co) = Some sh →
  _setupLuaScripts c σ = Some (At sh, σ).
Proof. intros Hc Hreg. by apply (_setupLuaScripts_found σ c co), get_property_own. Qed.

(** [new Lock] on a connection that is in both registries: two objects are
    read, one Lock is allocated, and that is all. *)
Lemma Lock_registered σ c r sh opts :
  registered c σ r sh →
  Lock uuid_v1 c opts σ =
    Some (fresh (dom (locks σ)),
          set_locks <[fresh (dom (locks σ)) :=
                       {| lock_id := uuid_v1 (uuid_count σ);
                          lock_locked := false; lock_key := None;
                          lock_client := r; lock_shavaluator := sh;
                          lock_timeout := option_or_default opts opt_timeout (timeout (_defaults σ));
                          lock_retries := option_or_default opts opt_retries (retries (_defaults σ));
                          lock_delay := option_or_default opts opt_delay (delay (_defaults σ)) |}]>
            (set_uuid_count (S (uuid_count σ)) σ)).
Proof.
  intros (co & Hc & Hid & Hreg & Hsh). unfold Lock, uuid.
  erewrite _setupClient_again; [|exact Hc|exact Hid|exact Hreg]. simpl.
  erewrite _setupLuaScripts_again; [|exact Hc|exact Hsh]. done.
Qed.

Lemma Lock_registered_stays σ c r sh opts l σ' :
  registered c σ r sh →
  Lock uuid_v1 c opts σ = Some (l, σ') →
  registered c σ' r sh ∧ clients σ' = clients σ ∧ trace σ' = trace σ ∧
  _promisifiedClients σ' = _promisifiedClients σ ∧ _shavaluators σ' = _shavaluators σ ∧
  locks σ ⊆ locks σ' ∧
  ∃ L, locks σ' !! l = Some L ∧ lock_client L = r ∧ lock_shavaluator L = sh.
Proof.
  intros Hreg HLock. rewrite (Lock_registered _ _ _ _ _ Hreg) in HLock.
  injection HLock as <- <-. simpl. split_and!; try done.
  - apply insert_subseteq, not_elem_of_dom, is_fresh.
  - eexists. split; [apply lookup_insert_eq|done].
Qed.

(** Any number of further constructions on a registered connection. *)
Lemma construct_all_registered optss : ∀ σ c r sh,
  registered c σ r sh →
  ∃ ls σ', construct_all uuid_v1 c optss σ = Some (ls, σ') ∧
           length ls = length optss ∧
           registered c σ' r sh ∧ clients σ' = clients σ ∧ trace σ' = trace σ ∧
           _promisifiedClients σ' = _promisifiedClients σ ∧
           _shavaluators σ' = _shavaluators σ ∧
           locks σ ⊆ locks σ' ∧
           ∀ l, l ∈ ls → ∃ L, locks σ' !! l = Some L ∧ lock_client L = r ∧ lock_shavaluator L = sh.
Proof.
  induction optss as [|opts rest IH]; intros σ c r sh Hreg; simpl.
  - exists [], σ. split_and!; try done. intros l Hin. by apply elem_of_nil in Hin.
  - destruct (Lock uuid_v1 c opts σ) as [[l σ1]|] eqn:HLock;
      [|by rewrite (Lock_registered _ _ _ _ _ Hreg) in HLock].
    destruct (Lock_registered_stays _ _ _ _ _ _ _ Hreg HLock)
      as (Hreg1 & Hc1 & Ht1 & Hp1 & Hs1 & Hsub1 & L & HL & HLc & HLs).
    destruct (IH σ1 c r sh Hreg1) as (ls & σ2 & Hrun & Hlen & Hreg2 & Hc2 & Ht2 & Hp2 & Hs2 & Hsub2 & Hall).
    simpl. rewrite Hrun. simpl. exists (l :: ls), σ2. split_and!; try congruence.
    + simpl. by rewrite Hlen.
    + by etrans.
    + intros l' Hin. apply elem_of_cons in Hin as [->|Hin]; [|by apply Hall].
      exists L. split; [|done]. by eapply lookup_weaken.
Qed.

(** [new Lock] on a connection whose identity neither registry has. *)
Lemma Lock_first σ c co opts :
  clients σ !! c = Some co →
  let id := identity_at uuid_v1 (S (uuid_count σ)) co in
  let co' := {| connection_id := id;
                async_methods := foldl with_async (async_methods co) ["get"; "set"; "watch"] |} in
  truthy id = true →
  inherited (to_key id) = false →
  _promisifiedClients σ !! to_key id = None →
  _shavaluators σ !! to_key id = None →
  ∃ l σ1 (sh : ref),
    Lock uuid_v1 c opts σ = Some (l, σ1) ∧
    clients σ1 = <[c := co']> (clients σ) ∧
    trace σ1 = (trace σ ++ promisify_events c (async_methods co) ["get"; "set"; "watch"]
                  ++ [EvNewShavaluator c; EvPromisifyAll sh; EvAddScript sh "delifequal"])%list ∧
    _promisifiedClients σ1 = <[to_key id := c]> (_promisifiedClients σ) ∧
    _shavaluators σ1 = <[to_key id := sh]> (_shavaluators σ) ∧
    uuid_count σ1 = (if truthy (connection_id co) then S (uuid_count σ)
                     else S (S (uuid_count σ))) ∧
    locks σ ⊆ locks σ1 ∧
    (∃ L, locks σ1 !! l = Some L ∧ lock_client L = At c ∧ lock_shavaluator L = At sh) ∧
    registered c σ1 c sh.
Proof.
  intros Hc id co' Hid Hown Hfree1 Hfree2. unfold Lock, uuid.
  erewrite _setupClient_first; [|exact Hc|exact Hfree1|exact Hown].
  subst co' id.
  set (id := identity_at uuid_v1 (S (uuid_count σ)) co) in *.
  set (evs := promisify_events c (async_methods co) ["get"; "set"; "watch"]).
  set (am := foldl with_async (async_methods co) ["get"; "set"; "watch"]).
  assert (∀ τ : state, _shavaluators τ = _shavaluators σ → shavals τ = shavals σ →
            locks τ = locks σ → clients τ = clients σ →
            _promisifiedClients τ = _promisifiedClients σ → trace τ = trace σ →
          ∃ l σ1 (sh : ref),
            ('(sh, σ2) ← _setupLuaScripts c
                 (set_promisifiedClients <[to_key id := c]>
                    (set_clients <[c := {| connection_id := id; async_methods := am |}]>
                       (log_all evs τ)));
             Some (fresh (dom (locks σ2)),
                   set_locks <[fresh (dom (locks σ2)) :=
                     {| lock_id := uuid_v1 (uuid_count σ); lock_locked := false;
                        lock_key := None; lock_client := c; lock_shavaluator := sh;
                        lock_timeout := option_or_default opts opt_timeout (timeout (_defaults σ2));
                        lock_retries := option_or_default opts opt_retries (retries (_defaults σ2));
                        lock_delay := option_or_default opts opt_delay (delay (_defaults σ2)) |}]> σ2))
              = Some (l, σ1) ∧
            clients σ1 = <[c := {| connection_id := id; async_methods := am |}]> (clients σ) ∧
            trace σ1 = (trace σ ++ evs
               ++ [EvNewShavaluator c; EvPromisifyAll sh; EvAddScript sh "delifequal"])%list ∧
            _promisifiedClients σ1 = <[to_key id := c]> (_promisifiedClients σ) ∧
            _shavaluators σ1 = <[to_key id := sh]> (_shavaluators σ) ∧
            uuid_count σ1 = uuid_count τ ∧
            locks σ ⊆ locks σ1 ∧
            (∃ L, locks σ1 !! l = Some L ∧ lock_client L = At c ∧ lock_shavaluator L = At sh) ∧
            registered c σ1 c sh) as Hgen.
  { intros τ Hτ1 Hτ2 Hτ3 Hτ4 Hτ5 Hτ6. unfold _setupLuaScripts. simpl.
    rewrite lookup_insert_eq. simpl. rewrite Hτ1, (get_property_fresh _ _ Hfree2 Hown). simpl.
    eexists _, _, _. split; [reflexivity|]. simpl.
    rewrite Hτ1, Hτ3, Hτ4, Hτ5, Hτ6. split_and!; try done.
    - by rewrite <- !app_assoc.
    - apply insert_subseteq, not_elem_of_dom, is_fresh.
    - eexists. split; [apply lookup_insert_eq|done].
    - unfold registered. simpl. eexists. split; [apply lookup_insert_eq|]. simpl.
      by rewrite !lookup_insert_eq. }
  destruct (truthy (connection_id co)); simpl.
  - destruct (Hgen (set_uuid_count (S (uuid_count σ)) σ)) as (l & σ1 & sh & HL & H); try done.
    exists l, σ1, sh. split; [exact HL|]. exact H.
  - destruct (Hgen (set_uuid_count (S (S (uuid_count σ))) (set_uuid_count (S (uuid_count σ)) σ)))
      as (l & σ1 & sh & HL & H); try done.
    exists l, σ1, sh. split; [exact HL|]. exact H.
Qed.


(** X16.  The first construction on a connection whose identity neither registry
    has (as a property of its own or as an inherited one) changes the
    connection object: without a [connection_id] it is given the next
    identifier of [uuid.v1], one not handed out before; a truthy
    [connection_id] is kept; each of [getAsync], [setAsync], [watchAsync]
    that is missing becomes the promisified command, and the ones that are
    there, like every other property, are kept.  Any number of later
    constructions on the same connection leave every connection object as
    it is. *)
Theorem construction_mutates_connection σ c co opts :
  clients σ !! c = Some co →
  let id := identity_at uuid_v1 (S (uuid_count σ)) co in
  truthy id = true →
  inherited (to_key id) = false →
  _promisifiedClients σ !! to_key id = None →
  _shavaluators σ !! to_key id = None →
  ∃ l σ1 co1,
    Lock uuid_v1 c opts σ = Some (l, σ1) ∧
    clients σ1 !! c = Some co1 ∧
    (connection_id co = JUndefined →
       connection_id co1 = JStr (uuid_v1 (S (uuid_count σ))) ∧
       (uuid_count σ < S (uuid_count σ) < uuid_count σ1)%nat) ∧
    (truthy (connection_id co) = true → connection_id co1 = connection_id co) ∧
    (∀ m, m ∈ ["get"; "set"; "watch"] →
       async_methods co1 !! (m +:+ "Async") =
         Some (default (Promisified m) (async_methods co !! (m +:+ "Async")))) ∧
    (∀ k, k ∉ ["getAsync"; "setAsync"; "watchAsync"] →
       async_methods co1 !! k = async_methods co !! k) ∧
    (∀ optss, ∃ ls σ2,
       construct_all uuid_v1 c optss σ1 = Some (ls, σ2) ∧
       length ls = length optss ∧ clients σ2 = clients σ1).
Proof.
  intros Hc id Hid Hown Hfree1 Hfree2.
  destruct (Lock_first σ c co opts Hc Hid Hown Hfree1 Hfree2)
    as (l & σ1 & sh & HLock & Hc1 & Ht1 & Hp1 & Hs1 & Hu1 & Hsub1 & _ & Hreg1).
  eexists l, σ1, _. split; [exact HLock|].
  split; [rewrite Hc1; apply lookup_insert_eq|]. simpl. split_and!.
  - intros Hundef. subst id. unfold identity_at. rewrite Hu1, Hundef. simpl. split; [done|lia].
  - intros Htruthy. subst id. unfold identity_at. by rewrite Htruthy.
  - intros m Hm. by apply setup_async_lookup.
  - intros k Hk. by apply setup_async_lookup_other.
  - intros optss.
    destruct (construct_all_registered optss σ1 c c sh Hreg1)
      as (ls & σ2 & Hrun & Hlen & _ & Hc2 & _).
    by exists ls, σ2.
Qed.

End Construction_properties.

(** ** Several Locks on one store *)

Lemma task_of_insert s l ts l' σ st settled :
  task_of {| sys_state := σ; sys_store := st;
             sys_tasks := <[l := ts]> (sys_tasks s); sys_settled := settled |} l' =
    if decide (l = l') then ts else task_of s l'.
Proof.
  unfold task_of; simpl. destruct (decide (l = l')) as [->|Hne].
  - by rewrite lookup_insert_eq.
  - by rewrite lookup_insert_ne.
Qed.

Lemma task_of_with_tasks s l ts l' :
  task_of (with_tasks l ts s) l' = if decide (l = l') then ts else task_of s l'.
Proof. apply task_of_insert. Qed.

(** With one operation under way at most, the one that arrives is that
    one. *)
Lemma single_task (ts : list task) i t :
  (length ts ≤ 1)%nat → ts !! i = Some t → i = 0%nat ∧ ts = [t].
Proof.
  destruct ts as [|t' [|t'' ts]]; simpl; intros Hlen Hi; [done| |lia].
  destruct i; simpl in Hi; [|done]. by injection Hi as ->.
Qed.

Lemma initial_exclusive K s : initial s → exclusive K s.
Proof.
  intros (Htasks & Hunlocked & Hdist).
  assert (∀ l, task_of s l = []) as Hidle.
  { intros l. unfold task_of. by rewrite Htasks, lookup_empty. }
  unfold exclusive. split_and!; [done|..].
  - intros l. rewrite Hidle. simpl. lia.
  - intros l L t _ Hin. rewrite Hidle in Hin. by apply elem_of_nil in Hin.
  - intros l L key res _ Hin. rewrite Hidle in Hin. by apply elem_of_nil in Hin.
  - intros l L HL. rewrite Hidle. simpl. by rewrite (Hunlocked l L HL).
Qed.

(** A step that changes the Lock and the operations of [l] alone keeps the
    invariant if it keeps it for [l] and keeps what the other Locks count
    on in the store. *)
Lemma exclusive_local K l s s' :
  exclusive K s →
  (∀ l', l' ≠ l → locks (sys_state s') !! l' = locks (sys_state s) !! l' ∧
                   task_of s' l' = task_of s l') →
  (length (task_of s' l) ≤ 1)%nat →
  (∀ L', locks (sys_state s') !! l = Some L' →
     (∃ L, locks (sys_state s) !! l = Some L ∧ lock_id L = lock_id L') ∧
     (∀ t, t ∈ task_of s' l → acquiring t = true → lock_locked L' = false) ∧
     (∀ key res, ExecInFlight key res ∈ task_of s' l → lock_key L' = key) ∧
     (holds_in L' (task_of s' l) K = true → sys_store s' !! K = Some (lock_id L'))) →
  (∀ l' L', l' ≠ l → locks (sys_state s) !! l' = Some L' →
     holds_in L' (task_of s l') K = true →
     sys_store s !! K = Some (lock_id L') → sys_store s' !! K = Some (lock_id L')) →
  exclusive K s'.
Proof.
  intros (Hdist & Hone & Hacq & Hrel & Hholds) Hframe Hlen Hl Hstore.
  assert (∀ l' L', locks (sys_state s') !! l' = Some L' →
            ∃ L, locks (sys_state s) !! l' = Some L ∧ lock_id L = lock_id L') as Hids.
  { intros l' L' HL'. destruct (decide (l' = l)) as [->|Hne].
    - by apply Hl.
    - destruct (Hframe l' Hne) as [Heq _]. rewrite Heq in HL'. by exists L'. }
  unfold exclusive. split_and!.
  - intros l1 l2 L1 L2 H1 H2 Hid.
    destruct (Hids _ _ H1) as (L1' & H1' & Hid1), (Hids _ _ H2) as (L2' & H2' & Hid2).
    apply (Hdist l1 l2 L1' L2' H1' H2'). congruence.
  - intros l'. destruct (decide (l' = l)) as [->|Hne]; [done|].
    destruct (Hframe l' Hne) as [_ ->]. apply Hone.
  - intros l' L' t HL' Hin Ht. destruct (decide (l' = l)) as [->|Hne].
    + by apply (Hl L' HL') in Hin.
    + destruct (Hframe l' Hne) as [Heq Htask]. rewrite Heq in HL'. rewrite Htask in Hin.
      by eapply Hacq.
  - intros l' L' key res HL' Hin. destruct (decide (l' = l)) as [->|Hne].
    + by apply (Hl L' HL') in Hin.
    + destruct (Hframe l' Hne) as [Heq Htask]. rewrite Heq in HL'. rewrite Htask in Hin.
      by eapply Hrel.
  - intros l' L' HL' Ht. destruct (decide (l' = l)) as [->|Hne].
    + by apply Hl.
    + destruct (Hframe l' Hne) as [Heq Htask]. rewrite Heq in HL'. rewrite Htask in Ht.
      eapply Hstore; eauto.
Qed.

(** An operation settles and leaves the Lock as it is. *)
Lemma settle_exclusive K l o s :
  exclusive K s → exclusive K (settle l o (sys_state s) s).
Proof. intros Hex. exact Hex. Qed.

(** The conditional write of a Lock that is not locked is sent as its only
    operation. *)
Lemma issue_set_exclusive K down l L key retries put s :
  exclusive K s →
  locks (sys_state s) !! l = Some L →
  lock_locked L = false →
  (∀ t, put t = [t]) →
  exclusive K (issue_set down l L key retries put s).
Proof.
  intros Hex HL Hunlocked Hput. pose proof Hex as (Hdist & Hone & Hacq & Hrel & Hholds).
  unfold issue_set, transmit.
  destruct down as [e|]; [|unfold store_set_nx; destruct (sys_store s !! key) as [v|] eqn:Hkey];
    apply (exclusive_local K l s); try done; simpl;
    try (intros l' Hne; by rewrite task_of_insert, decide_False);
    try (rewrite task_of_insert, decide_True, Hput by done; simpl; lia);
    try (intros L' HL'; rewrite task_of_insert, decide_True, Hput by done;
         rewrite HL in HL'; injection HL' as <-; split_and!;
         [by exists L
         |done
         |intros key' res' Hin; apply list_elem_of_singleton in Hin; discriminate
         |simpl]).
  - done.
  - by rewrite andb_false_r.
  - rewrite andb_true_r. intros ->%bool_decide_eq_true. apply lookup_insert_eq.
  - intros l' L' Hne HL' Hh Hstore. destruct (decide (key = K)) as [->|HneK].
    + congruence.
    + by rewrite lookup_insert_ne.
Qed.

(** One action that keeps to the rules keeps the invariant of [K]. *)
Lemma step_on_exclusive K a : ∀ down s,
  disciplined K s a = true → exclusive K s → exclusive K (step_on down a s).
Proof.
  induction a as [l key|l|l i|k|l i e|a IH e]; intros down s Hd Hex;
    pose proof Hex as (Hdist & Hone & Hacq & Hrel & Hholds); simpl in Hd |- *.
  - (* acquire is called *)
    apply bool_decide_eq_true in Hd.
    destruct (locks (sys_state s) !! l) as [L|] eqn:HL; [|by apply settle_exclusive].
    destruct (lock_locked L) eqn:Hlocked; [by apply settle_exclusive|].
    apply issue_set_exclusive; try done. intros t. by rewrite Hd.
  - (* release is called *)
    apply bool_decide_eq_true in Hd.
    destruct (locks (sys_state s) !! l) as [L|] eqn:HL; [|by apply settle_exclusive].
    destruct (lock_locked L) eqn:Hlocked; simpl; [|by apply settle_exclusive].
    rewrite Hd. unfold transmit.
    destruct down as [e|]; [|unfold delifequal; case_decide as Hown];
      apply (exclusive_local K l s); try done; simpl;
      try (intros l' Hne; by rewrite task_of_insert, decide_False);
      try (rewrite task_of_insert, decide_True by done; simpl; lia);
      try (intros L' HL'; rewrite task_of_insert, decide_True by done;
           rewrite HL in HL'; injection HL' as <-; split_and!;
           [by exists L
           |intros t Hin; apply list_elem_of_singleton in Hin; by subst t
           |intros key' res' Hin; apply list_elem_of_singleton in Hin; congruence
           |simpl]); try done.
    + (* the command does not get through *)
      intros Hh. apply (Hholds l L HL). by rewrite Hd.
    + (* the store deletes the key *)
      intros l' L' Hne HL' Hh Hstore.
      destruct (decide (key_arg (lock_key L) = K)) as [HK|HneK].
      * subst K. exfalso. apply Hne. apply (Hdist l' l L' L HL' HL). congruence.
      * by rewrite lookup_delete_ne.
  - (* a reply or a timer arrives *)
    destruct (locks (sys_state s) !! l) as [L|] eqn:HL; [|done].
    destruct (task_of s l !! i) as [t|] eqn:Hi; [|done].
    destruct (single_task _ _ _ (Hone l) Hi) as [-> Ht]. rewrite Ht. simpl.
    assert (∀ L' : lock_obj, lock_locked L' = false → ∀ τ,
              locks τ !! l = Some L' → lock_id L' = lock_id L →
              (∀ l', l' ≠ l → locks τ !! l' = locks (sys_state s) !! l') →
              ∀ o, exclusive K (settle l o τ (with_tasks l [] s))) as Hdone.
    { intros L' Hunlocked τ Hτ Hid Hframe o.
      apply (exclusive_local K l s); try done; unfold settle; simpl.
      - intros l' Hne. rewrite task_of_insert, decide_False by done. by split; [apply Hframe|].
      - rewrite task_of_insert, decide_True by done. simpl. lia.
      - intros L'' HL''. rewrite task_of_insert, decide_True by done.
        rewrite Hτ in HL''. injection HL'' as <-. split_and!.
        + by exists L.
        + intros t' Hin. by apply elem_of_nil in Hin.
        + intros key' res' Hin. by apply elem_of_nil in Hin.
        + simpl. by rewrite Hunlocked. }
    destruct t as [key retries [res|e]|key retries|key [res|e]].
    + (* the answer to a conditional write *)
      assert (lock_locked L = false) as Hunlocked.
      { apply (Hacq l L (SetInFlight key retries (Fulfilled res)) HL); [|done].
        rewrite Ht. apply list_elem_of_here. }
      unfold attemptLock_then. destruct (truthy res) eqn:Hres; simpl.
      * (* granted: the callback of acquire runs *)
        apply (exclusive_local K l s); try done; unfold settle, acquire_then; simpl.
        -- intros l' Hne. rewrite task_of_insert, decide_False by done.
           rewrite HL. simpl. by rewrite lookup_insert_ne.
        -- rewrite task_of_insert, decide_True by done. simpl. lia.
        -- intros L' HL'. rewrite task_of_insert, decide_True by done.
           rewrite HL in HL'. simpl in HL'.
           rewrite lookup_insert_eq in HL'. injection HL' as <-. simpl.
           split_and!; [by exists L| | |].
           ++ intros t' Hin. by apply elem_of_nil in Hin.
           ++ intros key' res' Hin. by apply elem_of_nil in Hin.
           ++ intros HK%bool_decide_eq_true. injection HK as ->.
              apply (Hholds l L HL). rewrite Ht. simpl. rewrite Hres.
              by rewrite bool_decide_eq_true_2.
      * destruct (retries =? 0).
        -- by apply (Hdone L).
        -- apply (exclusive_local K l s); try done; simpl.
           ++ intros l' Hne. by rewrite task_of_insert, decide_False.
           ++ rewrite task_of_insert, decide_True by done. simpl. lia.
           ++ intros L' HL'. rewrite task_of_insert, decide_True by done. simpl.
              rewrite HL in HL'. injection HL' as <-.
              split_and!; [by exists L|done| |done].
              intros key' res' Hin. apply list_elem_of_singleton in Hin. discriminate.
    + (* the conditional write has failed *)
      apply (Hdone L); try done.
      apply (Hacq l L (SetInFlight key retries (Failed e)) HL); [|done].
      rewrite Ht. apply list_elem_of_here.
    + (* the timer of a retry *)
      apply issue_set_exclusive; try done.
      apply (Hacq l L (Delaying key retries) HL); [|done].
      rewrite Ht. apply list_elem_of_here.
    + (* the answer to a release: its callback runs *)
      unfold release_then. rewrite HL.
      assert (∀ o, exclusive K (settle l o (set_locks <[l := cleared L]> (sys_state s))
                                  (with_tasks l [] s))) as Hgoal.
      { intros o. apply (Hdone (cleared L)); try done.
        - apply lookup_insert_eq.
        - intros l' Hne. simpl. by rewrite lookup_insert_ne. }
      destruct (negb (truthy res)); apply Hgoal.
    + (* the release has failed: the Lock stays as it is *)
      apply (exclusive_local K l s); try done; unfold settle; simpl.
      * intros l' Hne. by rewrite task_of_insert, decide_False.
      * rewrite task_of_insert, decide_True by done. simpl. lia.
      * intros L' HL'. rewrite task_of_insert, decide_True by done.
        rewrite HL in HL'. injection HL' as <-. split_and!.
        -- by exists L.
        -- intros t' Hin. by apply elem_of_nil in Hin.
        -- intros key' res' Hin. by apply elem_of_nil in Hin.
        -- intros Hh. apply (Hholds l L HL). by rewrite Ht.
  - (* another key expires *)
    apply bool_decide_eq_true in Hd.
    apply (exclusive_local K 0%nat s); try done; try apply Hone; simpl.
    + intros L' HL'.
      split_and!; [by exists L'|intros t; by apply (Hacq 0%nat L' t)|
                   intros key' res'; by apply (Hrel 0%nat L')|].
      intros Hh. unfold expire. rewrite lookup_delete_ne by congruence.
      by apply (Hholds 0%nat L' HL').
    + intros l' L' Hne HL' Hh Hstore. unfold expire. by rewrite lookup_delete_ne by congruence.
  - (* an answer is lost *)
    destruct (task_of s l !! i) as [t|] eqn:Hi; [|done].
    destruct (single_task _ _ _ (Hone l) Hi) as [-> Ht].
    destruct t as [key retries res|key retries|key res]; [| done |]; rewrite Ht;
      apply (exclusive_local K l s); try done; unfold with_tasks; simpl;
      try (intros l' Hne; by rewrite task_of_insert, decide_False);
      try (rewrite task_of_insert, decide_True by done; simpl; lia);
      intros L HL; rewrite task_of_insert, decide_True by done; simpl.
    + split_and!; [by exists L| |intros key' res' Hin|done].
      * intros t' _ _. apply (Hacq l L (SetInFlight key retries res) HL); [|done].
        rewrite Ht. apply list_elem_of_here.
      * apply list_elem_of_singleton in Hin. discriminate.
    + assert (lock_key L = key) as Hkey.
      { apply (Hrel l L key res HL). rewrite Ht. apply list_elem_of_here. }
      split_and!; [by exists L| |intros key' res' Hin|].
      * intros t' Hin. apply list_elem_of_singleton in Hin. by subst t'.
      * apply list_elem_of_singleton in Hin. congruence.
      * intros Hh. destruct res as [v|e'].
        -- simpl in Hd. apply bool_decide_eq_true in Hd.
           apply andb_true_iff in Hh as [_ Hh%bool_decide_eq_true]. congruence.
        -- apply (Hholds l L HL). by rewrite Ht.
  - (* the connection is down *)
    by apply IH.
Qed.

Lemma step_exclusive K a s :
  disciplined K s a = true → exclusive K s → exclusive K (step a s).
Proof. apply step_on_exclusive. Qed.

Lemma run_cons a acts s : run (a :: acts) s = run acts (step a s).
Proof. reflexivity. Qed.

(** The invariant of [K] holds along every orderly run. *)
Lemma run_exclusive K acts : ∀ s,
  orderly K acts s → exclusive K s → exclusive K (run acts s).
Proof.
  induction acts as [|a acts IH]; intros s Hord Hex; [done|].
  rewrite run_cons. destruct Hord as [Hd Hord].
  apply IH; [done|]. by apply step_exclusive.
Qed.

(** *** The steps of one Lock with one operation under way *)

Lemma step_call_acquire s l L key :
  locks (sys_state s) !! l = Some L →
  lock_locked L = false →
  task_of s l = Idle →
  step (CallAcquire l key) s = issue_set None l L key (lock_retries L) (λ t, [t]) s.
Proof. intros HL Hunlocked Hidle. unfold step. simpl. by rewrite HL, Hunlocked, Hidle. Qed.

Lemma step_call_release s l L :
  locks (sys_state s) !! l = Some L →
  lock_locked L = true →
  task_of s l = Idle →
  step (CallRelease l) s =
    let r := delifequal (key_arg (lock_key L)) (lock_id L) (sys_store s) in
    {| sys_state := log (EvExecAsync (lock_shavaluator L) "delifequal"
                           [key_arg (lock_key L)] [lock_id L]) (sys_state s);
       sys_store := r.2;
       sys_tasks := <[l := [ExecInFlight (lock_key L) (Fulfilled r.1)]]> (sys_tasks s);
       sys_settled := sys_settled s |}.
Proof.
  intros HL Hlocked Hidle. unfold step. simpl. rewrite HL, Hlocked, Hidle. simpl.
  by destruct (delifequal _ _ _).
Qed.

Lemma step_settle_set s l L key retries res :
  locks (sys_state s) !! l = Some L →
  task_of s l = [SetInFlight key retries (Fulfilled res)] →
  step (Settle l) s =
    match attemptLock_then key retries res with
    | AttemptThrow e => settle l (Rejected e) (sys_state s) (with_tasks l [] s)
    | AttemptResolve => settle l Resolved (acquire_then l key (sys_state s)) (with_tasks l [] s)
    | AttemptRetry retries' =>
        {| sys_state := log (EvDelay (lock_delay L)) (sys_state s);
           sys_store := sys_store s;
           sys_tasks := <[l := [Delaying key retries']]> (sys_tasks s);
           sys_settled := sys_settled s |}
    end.
Proof. intros HL Ht. unfold step. simpl. by rewrite HL, Ht. Qed.

Lemma step_settle_delay s l L key retries :
  locks (sys_state s) !! l = Some L →
  task_of s l = [Delaying key retries] →
  step (Settle l) s = issue_set None l L key retries (λ t, [t]) s.
Proof. intros HL Ht. unfold step. simpl. by rewrite HL, Ht. Qed.

Lemma step_settle_exec s l L key res :
  locks (sys_state s) !! l = Some L →
  task_of s l = [ExecInFlight key (Fulfilled res)] →
  step (Settle l) s =
    settle l (release_then l key res (sys_state s)).1
      (release_then l key res (sys_state s)).2 (with_tasks l [] s).
Proof.
  intros HL Ht. unfold step. simpl. rewrite HL, Ht. simpl.
  by destruct (release_then _ _ _ _).
Qed.

Lemma step_settle_idle s l : task_of s l = Idle → step (Settle l) s = s.
Proof. intros Hidle. unfold step. simpl. rewrite Hidle. by destruct (locks _ !! l). Qed.

Lemma run_settle_idle n s l : task_of s l = Idle → run (repeat (Settle l) n) s = s.
Proof.
  intros Hidle. induction n as [|n IH]; [done|].
  cbn [repeat]. rewrite run_cons, step_settle_idle; done.
Qed.

(** A conditional write on a key that is taken. *)
Lemma issue_set_refused s l L key retries put v :
  sys_store s !! key = Some v →
  issue_set None l L key retries put s =
    {| sys_state := log (EvSetAsync (lock_client L) key (lock_id L) (lock_timeout L))
                      (sys_state s);
       sys_store := sys_store s;
       sys_tasks := <[l := put (SetInFlight key retries (Fulfilled JNull))]> (sys_tasks s);
       sys_settled := sys_settled s |}.
Proof. intros Hkey. unfold issue_set, transmit, store_set_nx. by rewrite Hkey. Qed.

(** A conditional write on a key that is free. *)
Lemma issue_set_granted s l L key retries put :
  sys_store s !! key = None →
  issue_set None l L key retries put s =
    {| sys_state := log (EvSetAsync (lock_client L) key (lock_id L) (lock_timeout L))
                      (sys_state s);
       sys_store := <[key := lock_id L]> (sys_store s);
       sys_tasks := <[l := put (SetInFlight key retries (Fulfilled (JStr "OK")))]> (sys_tasks s);
       sys_settled := sys_settled s |}.
Proof. intros Hkey. unfold issue_set, transmit, store_set_nx. by rewrite Hkey. Qed.

(** The whole retry loop of one Lock on a key that stays taken, with no
    other Lock moving in between. *)
Lemma retry_loop_refused (n : nat) : ∀ s l L key v,
  locks (sys_state s) !! l = Some L →
  sys_store s !! key = Some v →
  let s' := run (repeat (Settle l) (2 * n + 1))
              (issue_set None l L key (Z.of_nat n) (λ t, [t]) s) in
  sys_store s' = sys_store s ∧
  sys_state s' =
    log_all (retry_trace (lock_client L) key (lock_id L) (lock_timeout L) (lock_delay L) n)
      (sys_state s) ∧
  sys_settled s' =
    (sys_settled s ++
       [(l, Rejected (LockAcquisitionError ("Could not acquire lock on " +:+ key)))])%list ∧
  task_of s' l = Idle ∧
  (∀ l', l' ≠ l → task_of s' l' = task_of s l').
Proof.
  induction n as [|n IH]; intros s l L key v HL Hkey;
    rewrite (issue_set_refused _ _ _ _ _ _ _ Hkey);
    match goal with |- context [run _ ?s0] => set (s1 := s0) end.
  - cbn [Nat.mul Nat.add repeat]. rewrite run_cons.
    rewrite (step_settle_set s1 l L key (Z.of_nat 0) JNull HL)
      by (subst s1; by rewrite task_of_insert, decide_True).
    unfold attemptLock_then; simpl. split_and!; try done.
    + unfold task_of; simpl. by rewrite lookup_insert_eq.
    + intros l' Hne. unfold task_of; simpl. by rewrite !lookup_insert_ne.
  - replace (2 * S n + 1)%nat with (S (S (2 * n + 1))) by lia.
    cbn [repeat]. rewrite !run_cons.
    rewrite (step_settle_set s1 l L key (Z.of_nat (S n)) JNull HL)
      by (subst s1; by rewrite task_of_insert, decide_True).
    unfold attemptLock_then. simpl truthy. cbn [negb andb].
    destruct (Z.eqb_spec (Z.of_nat (S n)) 0) as [?|_]; [lia|].
    replace (Z.of_nat (S n) - 1) with (Z.of_nat n) by lia.
    match goal with |- context [step _ ?s0] => set (s2 := s0) end.
    rewrite (step_settle_delay s2 l L key (Z.of_nat n) HL)
      by (subst s2; by rewrite task_of_insert, decide_True).
    destruct (IH s2 l L key v) as (Hstore & Hstate & Hsettled & Htask & Hothers); [done..|].
    split_and!; try done.
    + rewrite Hstate. subst s2 s1. simpl. by rewrite !log_log_all.
    + intros l' Hne. rewrite (Hothers l' Hne). subst s2 s1.
      unfold task_of; simpl. by rewrite !lookup_insert_ne.
Qed.

Lemma in_locked_state_store K s l :
  exclusive K s → in_locked_state s l K →
  ∃ L, locks (sys_state s) !! l = Some L ∧ sys_store s !! K = Some (lock_id L).
Proof.
  intros (_ & _ & _ & _ & Hholds) (L & HL & Hlocked & Hkey & Hidle).
  exists L. split; [done|]. apply (Hholds l L HL).
  rewrite Hidle. simpl. by rewrite Hlocked, Hkey, bool_decide_eq_true_2.
Qed.


(** ** Concrete runs *)

Lemma two_locks_initial : initial two_locks.
Proof.
  assert (locks (sys_state two_locks) =
            <[1%nat := {| lock_id := "uuid-2"; lock_locked := false; lock_key := None;
                          lock_client := 0%nat; lock_shavaluator := 0%nat;
                          lock_timeout := 10000; lock_retries := 0; lock_delay := 100 |}]>
              {[0%nat := {| lock_id := "uuid-0"; lock_locked := false; lock_key := None;
                            lock_client := 0%nat; lock_shavaluator := 0%nat;
                            lock_timeout := 10000; lock_retries := 0; lock_delay := 100 |}]})
    as Hlocks by (vm_compute; reflexivity).
  split_and!; [done|..]; rewrite Hlocks.
  - intros l L HL. apply lookup_insert_Some in HL as [[_ <-]|[_ HL]]; [done|].
    apply lookup_singleton_Some in HL as [_ <-]. done.
  - intros l1 l2 L1 L2 H1 H2 Hid.
    apply lookup_insert_Some in H1 as [[<- <-]|[_ H1]];
      apply lookup_insert_Some in H2 as [[<- <-]|[_ H2]]; try done.
    + apply lookup_singleton_Some in H2 as [_ <-]. discriminate.
    + apply lookup_singleton_Some in H1 as [_ <-]. discriminate.
    + apply lookup_singleton_Some in H1 as [<- _].
      by apply lookup_singleton_Some in H2 as [<- _].
Qed.



Lemma release_not_locked_throws_witness :
  release 0%nat true (process_with [None]) (∅ : gmap string string) =
    (Threw (LockReleaseError "Lock has not been acquired"), process_with [None], ∅).
Proof.
  eapply release_not_locked_throws; [vm_compute; reflexivity|reflexivity].
Defined.

(** The lease of Lock 0 has run out in the store (the store is empty)
    when it calls [release]. *)
Lemma release_noop_fails_and_clears_witness :
  ∃ σ', release 0%nat false held_by_0.1 (∅ : gmap string string) =
          (Rejected (LockReleaseError "Lock on K has expired"), σ', ∅) ∧
        (lock_locked <$> locks σ' !! 0%nat) = Some false ∧
        (lock_key <$> locks σ' !! 0%nat) = Some None.
Proof.
  edestruct (release_noop_fails_and_clears (World := gmap string string)
               held_by_0.1 ∅ 0%nat) as (σ' & Hrelease & HL & _);
    [vm_compute; reflexivity|reflexivity|reflexivity|reflexivity|].
  exists σ'. split; [exact Hrelease|]. by rewrite HL.
Defined.

(** C3 fails on the code.  Lock 0 holds "K" and is registered in
    [Lock._acquiredLocks]; the script deletes the key and answers 1;
    [release] succeeds, the flag is cleared, the key is null, and the Lock
    is still registered. *)
Theorem release_leaves_lock_registered :
  _acquiredLocks held_by_0.1 !! "uuid-0" = Some 0%nat ∧
  held_by_0.2 !! "K" = Some "uuid-0" ∧
  ∃ σ' w', release 0%nat false held_by_0.1 held_by_0.2 = (Resolved, σ', w') ∧
           w' !! "K" = None ∧
           (lock_locked <$> locks σ' !! 0%nat) = Some false ∧
           (lock_key <$> locks σ' !! 0%nat) = Some None ∧
           _acquiredLocks σ' !! "uuid-0" = Some 0%nat.
Proof.
  split; [vm_compute; reflexivity|]. split; [vm_compute; reflexivity|].
  eexists _, _. split; [vm_compute; reflexivity|].
  split_and!; vm_compute; reflexivity.
Qed.

Lemma acquire_locked_rejects_witness :
  ∃ σ',
    acquire 1 0%nat "other" false held_by_0.1 held_by_0.2 =
      (Some (Rejected (LockAcquisitionError "Lock already held")), σ', held_by_0.2) ∧
    same_but_callbacks held_by_0.1 σ'.
Proof.
  eapply acquire_locked_rejects; [vm_compute; reflexivity|reflexivity].
Defined.

(** C4 fails as stated: on the locked Lock 0, [acquire] does not end in
    an error of the AlreadyHeld class, thrown or not; it returns a promise
    rejected with a LockAcquisitionError. *)
Lemma acquire_locked_is_not_already_held :
  ¬ already_held_failure (acquire 1 0%nat "K" false held_by_0.1 held_by_0.2).1.1 ∧
  (acquire 1 0%nat "K" false held_by_0.1 held_by_0.2).1.1 =
    Some (Rejected (LockError AcquisitionError "Lock already held")).
Proof.
  split; [|vm_compute; reflexivity].
  intros [msg [H|H]]; vm_compute in H; discriminate.
Qed.

Lemma acquire_transport_error_propagates_witness :
  @acquire nat flaky_adapter 5 0%nat "K" true (process_with [retrying 2]) 0%nat =
    (Some (Rejected (ExternalError "ECONNRESET")),
     log_all [EvSetAsync 0%nat "K" "uuid-0" 10000; EvDelay 5;
              EvSetAsync 0%nat "K" "uuid-0" 10000;
              EvCallback (Some (ExternalError "ECONNRESET"))]
       (process_with [retrying 2]), 2%nat).
Proof.
  edestruct (@acquire_transport_error_propagates nat flaky_adapter
               (process_with [retrying 2]) 0%nat 0%nat (retrying_lock 2) "K" true 1%nat 5%nat)
    as (σ' & Hacquire & -> & _);
    [vm_compute; reflexivity|reflexivity|right; simpl; lia| |reflexivity|lia|exact Hacquire].
  intros i Hi. assert (i = 0%nat) as -> by lia. by exists JNull.
Defined.

Lemma contended_always_rejects : @always_rejects unit contended_adapter.
Proof. intros c key id px w. by exists JNull. Qed.

Lemma acquire_rejected_every_time_witness :
  @acquire unit contended_adapter 3 0%nat "K" false (process_with [retrying 2]) tt =
    (Some (Rejected (LockAcquisitionError "Could not acquire lock on K")),
     log_all [EvSetAsync 0%nat "K" "uuid-0" 10000; EvDelay 5;
              EvSetAsync 0%nat "K" "uuid-0" 10000; EvDelay 5;
              EvSetAsync 0%nat "K" "uuid-0" 10000] (process_with [retrying 2]), tt).
Proof.
  refine (proj1 (@acquire_rejected_every_time unit contended_adapter
                   (process_with [retrying 2]) tt 0%nat (retrying_lock 2) "K" false 2%nat 3%nat
                   _ _ _ _ _));
    [vm_compute; reflexivity|reflexivity|reflexivity| |lia].
  intros i _. by exists JNull.
Defined.

Lemma attemptLock_settles_iff_nonnegative_witness :
  (∃ o evs w', @_attemptLock unit contended_adapter 3 0%nat "K" 2
                 (process_with [retrying 2]) tt = (Some o, log_all evs (process_with [retrying 2]), w') ∧
               (count is_setAsync evs ≤ 3)%nat) ∧
  (∃ evs w', @_attemptLock unit contended_adapter 7 0%nat "K" (-1)
               (process_with [retrying (-1)]) tt = (None, log_all evs (process_with [retrying (-1)]), w') ∧
             count is_setAsync evs = 7%nat).
Proof.
  split.
  - apply (proj1 (@attemptLock_settles_iff_nonnegative unit contended_adapter
                    (process_with [retrying 2]) tt 0%nat "K") 2%nat 3%nat). lia.
  - eapply (proj2 (@attemptLock_settles_iff_nonnegative unit contended_adapter
                     (process_with [retrying (-1)]) tt 0%nat "K"));
      [vm_compute; reflexivity|apply contended_always_rejects|lia].
Defined.




Lemma construction_mutates_connection_witness :
  ∃ l σ1 co1,
    Lock demo_uuid 0%nat None (initial_state {[ 0%nat := raw_client ]}) = Some (l, σ1) ∧
    clients σ1 !! 0%nat = Some co1 ∧
    connection_id co1 = JStr "uuid-1" ∧
    async_methods co1 !! "setAsync" = Some (Promisified "set") ∧
    ∃ l2 σ2, Lock demo_uuid 0%nat None σ1 = Some (l2, σ2) ∧ clients σ2 = clients σ1.
Proof.
  destruct (construction_mutates_connection demo_uuid
              (initial_state {[ 0%nat := raw_client ]}) 0%nat raw_client None)
    as (l & σ1 & co1 & HLock & Hc1 & Hfresh & _ & Hasync & _ & Hlater);
    [reflexivity..|].
  exists l, σ1, co1. split_and!; try done.
  - by apply Hfresh.
  - exact (Hasync "set" (list_elem_of_further _ _ _ (list_elem_of_here _ _))).
  - destruct (Hlater [None]) as (ls & σ2 & Hrun & Hlen & Hsame).
    simpl in Hrun. destruct (Lock demo_uuid 0%nat None σ1) as [[l2 σ2']|]; [|done].
    simpl in Hrun. injection Hrun as _ <-. by exists l2, σ2'.
Defined.

(** ** One Lock alone: the scheduler and the sequential reading agree *)

Lemma world_before_taken c key id px ms v (w : gmap string string) i :
  w !! key = Some v → world_before c key id px ms i w = w.
Proof.
  intros Hkey. induction i as [|i IH]; [done|].
  simpl. unfold store_set_nx. by rewrite Hkey.
Qed.

Lemma refused_before_taken c key id px ms v (w : gmap string string) k :
  w !! key = Some v → refused_before c key id px ms k w.
Proof.
  intros Hkey i _. rewrite (world_before_taken _ _ _ _ _ v) by done.
  exists JNull. simpl. unfold store_set_nx. by rewrite Hkey.
Qed.

(** [release] on a Lock with nothing under way, and the two steps of the
    scheduler that carry it out, end in the same process, the same store
    and the same result. *)
Lemma sequential_release_agrees s l L :
  locks (sys_state s) !! l = Some L →
  task_of s l = Idle →
  let s' := run [CallRelease l; Settle l] s in
  let r := release l false (sys_state s) (sys_store s) in
  sys_state s' = r.1.2 ∧ sys_store s' = r.2 ∧
  sys_settled s' = (sys_settled s ++ [(l, r.1.1)])%list.
Proof.
  intros HL Hidle s' r. subst s' r.
  change (run [CallRelease l; Settle l] s) with (step (Settle l) (step (CallRelease l) s)).
  unfold release. rewrite HL.
  destruct (lock_locked L) eqn:Hlocked; simpl.
  - rewrite (step_call_release s l L HL Hlocked Hidle). cbv zeta.
    match goal with |- context [step _ ?s0] => set (s1 := s0) end.
    rewrite (step_settle_exec s1 l L (lock_key L)
               (delifequal (key_arg (lock_key L)) (lock_id L) (sys_store s)).1 HL)
      by (subst s1; by rewrite task_of_insert, decide_True).
    subst s1. simpl.
    destruct (delifequal (key_arg (lock_key L)) (lock_id L) (sys_store s)) as [res st].
    simpl. by destruct (release_then l (lock_key L) res _) as [o σ].
  - assert (step (CallRelease l) s =
              settle l (Threw (LockReleaseError "Lock has not been acquired"))
                (sys_state s) s) as ->.
    { unfold step. simpl. by rewrite HL, Hlocked. }
    by rewrite step_settle_idle.
Qed.

(** The same for [acquire] with [N] retries and its [2 N + 2] steps: the
    call, then replies and timers in turn. *)
Lemma sequential_acquire_agrees s l L key (N : nat) :
  locks (sys_state s) !! l = Some L →
  task_of s l = Idle →
  lock_retries L = Z.of_nat N →
  let s' := run (CallAcquire l key :: repeat (Settle l) (2 * N + 1)) s in
  let r := acquire (S N) l key false (sys_state s) (sys_store s) in
  sys_state s' = r.1.2 ∧ sys_store s' = r.2 ∧
  ∃ o, r.1.1 = Some o ∧ sys_settled s' = (sys_settled s ++ [(l, o)])%list.
Proof.
  intros HL Hidle Hretries. rewrite run_cons. unfold acquire. rewrite HL.
  destruct (lock_locked L) eqn:Hlocked.
  - assert (step (CallAcquire l key) s =
              settle l (Rejected (LockAcquisitionError "Lock already held"))
                (sys_state s) s) as ->.
    { unfold step. simpl. by rewrite HL, Hlocked. }
    rewrite run_settle_idle by done. split_and!; try done. by eexists.
  - rewrite (step_call_acquire s l L key HL Hlocked Hidle), Hretries.
    destruct (sys_store s !! key) as [v|] eqn:Hkey.
    + destruct (retry_loop_refused N s l L key v HL Hkey)
        as (Hstore & Hstate & Hsettle & _).
      destruct (_attemptLock_refused_rounds N (sys_state s) (sys_store s) l L key
                  (Z.of_nat N) 1 HL (refused_before_taken _ _ _ _ _ v _ _ Hkey))
        as (evs & Hrun & Hevs); [lia|].
      replace (N + 1)%nat with (S N) in Hrun by lia.
      rewrite Hrun, Z.sub_diag, (world_before_taken _ _ _ _ _ v) by done.
      rewrite (_attemptLock_exhausted (log_all evs (sys_state s)) (sys_store s) l L key
                 0 JNull (sys_store s) HL);
        [|simpl; unfold store_set_nx; by rewrite Hkey|done].
      rewrite Hstate, Hstore, Hsettle. simpl.
      rewrite log_is_log_all, log_all_log_all, Hevs.
      split_and!; try done. by eexists.
    + rewrite (_attemptLock_granted (sys_state s) (sys_store s) l L key (Z.of_nat N) N
                 (JStr "OK") (<[key := lock_id L]> (sys_store s)) HL);
        [|simpl; unfold store_set_nx; by rewrite Hkey|done].
      replace (2 * N + 1)%nat with (S (2 * N)) by lia. cbn [repeat].
      rewrite run_cons, (issue_set_granted _ _ _ _ _ _ Hkey).
      match goal with |- context [step _ ?s0] => set (s1 := s0) end.
      rewrite (step_settle_set s1 l L key (Z.of_nat N) (JStr "OK") HL)
        by (subst s1; by rewrite task_of_insert, decide_True).
      unfold attemptLock_then. simpl.
      rewrite run_settle_idle
        by (subst s1; unfold task_of; simpl; by rewrite lookup_insert_eq).
      subst s1. simpl. split_and!; try done. by eexists.
Qed.

(** The scenario of section 8: Lock 0 acquires "res1" and the store holds
    its id there; Lock 1 (no retries) is turned down; Lock 0 releases and
    the key is gone; Lock 1 acquires. *)
Example end_to_end_scenario :
  let s1 := run [CallAcquire 0%nat "res1"; Settle 0%nat] two_locks in
  let s2 := run [CallAcquire 1%nat "res1"; Settle 1%nat] s1 in
  let s3 := run [CallRelease 0%nat; Settle 0%nat] s2 in
  let s4 := run [CallAcquire 1%nat "res1"; Settle 1%nat] s3 in
  sys_store s1 !! "res1" = Some "uuid-0" ∧
  sys_settled s4 =
    [(0%nat, Resolved);
     (1%nat, Rejected (LockAcquisitionError "Could not acquire lock on res1"));
     (0%nat, Resolved);
     (1%nat, Resolved)] ∧
  sys_store s3 !! "res1" = None ∧
  sys_store s4 !! "res1" = Some "uuid-2".
Proof. split_and!; vm_compute; reflexivity. Qed.

(** * Further properties of the operations *)

Section Operations_more.

Context {World : Type} `{!StoreAdapter World}.
Implicit Types (σ : state) (w : World) (l : ref) (L : lock_obj).

Lemma refused_before_S c key id px ms k w res :
  (client_setAsync c key id px w).1 = Fulfilled res →
  truthy res = false →
  refused_before c key id px ms k (promise_delay ms (client_setAsync c key id px w).2) →
  refused_before c key id px ms (S k) w.
Proof.
  intros Hres Hfalsy Hrest [|i] Hi.
  - by exists res.
  - apply Hrest. lia.
Qed.

(** Every run of [_attemptLock] that settles is a number [k] of refused
    conditional writes followed by one that decides: granted, failed in
    transport, or refused with the retries used up. *)
Lemma _attemptLock_settled (fuel : nat) : ∀ σ w l L key retries o σ' w',
  locks σ !! l = Some L →
  _attemptLock fuel l key retries σ w = (Some o, σ', w') →
  ∃ k : nat,
    refused_before (lock_client L) key (lock_id L) (lock_timeout L) (lock_delay L) k w ∧
    σ' = log_all (retry_trace (lock_client L) key (lock_id L) (lock_timeout L)
                    (lock_delay L) k) σ ∧
    ∃ r, client_setAsync (lock_client L) key (lock_id L) (lock_timeout L)
           (world_before (lock_client L) key (lock_id L) (lock_timeout L) (lock_delay L) k w)
           = (r, w') ∧
         ((∃ res, r = Fulfilled res ∧ truthy res = true ∧ o = Resolved) ∨
          (∃ e, r = Failed e ∧ o = Rejected e) ∨
          (∃ res, r = Fulfilled res ∧ truthy res = false ∧ retries = Z.of_nat k ∧
                  o = Rejected (LockAcquisitionError ("Could not acquire lock on " +:+ key)))).
Proof.
  induction fuel as [|fuel IH]; intros σ w l L key retries o σ' w' Hl Hrun; [done|].
  destruct (client_setAsync (lock_client L) key (lock_id L) (lock_timeout L) w)
    as [[res|e] w1] eqn:Hset.
  - destruct (truthy res) eqn:Hres.
    + rewrite (_attemptLock_granted _ _ _ _ _ _ _ _ _ Hl Hset Hres) in Hrun.
      injection Hrun as <- <- <-. exists 0%nat. split; [intros i Hi; lia|].
      split; [done|]. exists (Fulfilled res). split; [done|]. left. by exists res.
    + destruct (decide (retries = 0)) as [->|Hne].
      * rewrite (_attemptLock_exhausted _ _ _ _ _ _ _ _ Hl Hset Hres) in Hrun.
        injection Hrun as <- <- <-. exists 0%nat. split; [intros i Hi; lia|].
        split; [done|]. exists (Fulfilled res). split; [done|]. right; right.
        by exists res.
      * rewrite (_attemptLock_retry _ _ _ _ _ _ _ _ _ Hl Hset Hres Hne) in Hrun.
        apply (IH _ _ _ L) in Hrun as (k & Hrefused & -> & r & Hlast & Hcases); [|done].
        exists (S k). split_and!.
        -- apply (refused_before_S _ _ _ _ _ _ _ res); [by rewrite Hset|done|by rewrite Hset].
        -- simpl. by rewrite !log_log_all.
        -- exists r. split; [simpl; by rewrite Hset|].
           destruct Hcases as [?|[?|(res' & -> & ? & Hk & ->)]]; [by left|by right; left|].
           right; right. exists res'. split_and!; try done. lia.
  - rewrite (_attemptLock_failed _ _ _ _ _ _ _ _ _ Hl Hset) in Hrun.
    injection Hrun as <- <- <-. exists 0%nat. split; [intros i Hi; lia|].
    split; [done|]. exists (Failed e). split; [done|]. right; left. by exists e.
Qed.

Lemma nodeify_trace fn o σ :
  trace (nodeify fn o σ) =
    (trace σ ++ if fn then
                  match o with
                  | Resolved => [EvCallback None]
                  | Rejected e => [EvCallback (Some e)]
                  | Threw _ => []
                  end
                else [])%list.
Proof. destruct fn, o; simpl; by rewrite ?app_nil_r. Qed.

Lemma acquire_then_locks σ l L key :
  locks σ !! l = Some L →
  locks (acquire_then l key σ) = <[l := locked_on L key]> (locks σ) ∧
  _acquiredLocks (acquire_then l key σ) = <[lock_id L := l]> (_acquiredLocks σ) ∧
  trace (acquire_then l key σ) = trace σ.
Proof. intros Hl. unfold acquire_then. by rewrite Hl. Qed.

(** X1.  The success path of [acquire]: after [k] refused conditional writes
    the next one is granted.  The promise is fulfilled, the Lock has its
    flag set and the key recorded, it is entered in [Lock._acquiredLocks]
    under its id, and the calls made are the [k + 1] conditional writes with
    the sleeps between them, then the callback (with no error) if one was
    passed. *)
Theorem acquire_granted_after_refusals σ w l L key fn (k fuel : nat) res w1 :
  locks σ !! l = Some L →
  lock_locked L = false →
  lock_retries L < 0 ∨ Z.of_nat k ≤ lock_retries L →
  refused_before (lock_client L) key (lock_id L) (lock_timeout L) (lock_delay L) k w →
  client_setAsync (lock_client L) key (lock_id L) (lock_timeout L)
    (world_before (lock_client L) key (lock_id L) (lock_timeout L) (lock_delay L) k w)
    = (Fulfilled res, w1) →
  truthy res = true →
  (k < fuel)%nat →
  ∃ σ', acquire fuel l key fn σ w = (Some Resolved, σ', w1) ∧
        locks σ' = <[l := locked_on L key]> (locks σ) ∧
        _acquiredLocks σ' = <[lock_id L := l]> (_acquiredLocks σ) ∧
        trace σ' = (trace σ
                    ++ retry_trace (lock_client L) key (lock_id L) (lock_timeout L)
                         (lock_delay L) k
                    ++ if fn then [EvCallback None] else [])%list.
Proof.
  intros Hl Hunlocked Hreach Hrefused Hgrant Hres Hfuel.
  destruct (_attemptLock_refused_rounds k σ w l L key (lock_retries L) (fuel - k)
              Hl Hrefused Hreach) as (evs & Hrun & Hevs).
  replace (k + (fuel - k))%nat with fuel in Hrun by lia.
  destruct (fuel - k)%nat as [|fuel'] eqn:Hrest; [lia|].
  rewrite (_attemptLock_granted _ _ _ _ _ _ _ _ _
             (Hl : locks (log_all evs σ) !! l = Some L) Hgrant Hres) in Hrun.
  unfold acquire. rewrite Hl, Hunlocked, Hrun.
  eexists. split; [reflexivity|].
  rewrite log_is_log_all, log_all_log_all, Hevs.
  rewrite nodeify_locks, nodeify_acquiredLocks, nodeify_trace.
  destruct (acquire_then_locks
              (log_all (retry_trace (lock_client L) key (lock_id L) (lock_timeout L)
                          (lock_delay L) k) σ) l L key Hl) as (-> & -> & ->).
  simpl. split_and!; try done. by rewrite <- app_assoc.
Qed.

(** X2.  Whenever [acquire] on a Lock that is not locked settles, it has made
    [k + 1] conditional writes of its own id on the key, with the sleeps
    between them, and nothing else but the callback.  It is fulfilled only
    if the last write was granted, and only then is the Lock changed: flag
    set, key recorded, entry in [Lock._acquiredLocks].  It is rejected with
    the transport error of the last write, or with a LockAcquisitionError
    when the last write was refused at the last retry, and then the Locks
    and [Lock._acquiredLocks] are exactly as before. *)
Theorem acquire_locks_only_when_granted σ w l L key fn fuel o σ' w' :
  locks σ !! l = Some L →
  lock_locked L = false →
  acquire fuel l key fn σ w = (Some o, σ', w') →
  ∃ (k : nat) r,
    refused_before (lock_client L) key (lock_id L) (lock_timeout L) (lock_delay L) k w ∧
    client_setAsync (lock_client L) key (lock_id L) (lock_timeout L)
      (world_before (lock_client L) key (lock_id L) (lock_timeout L) (lock_delay L) k w)
      = (r, w') ∧
    trace σ' = (trace σ
                ++ retry_trace (lock_client L) key (lock_id L) (lock_timeout L)
                     (lock_delay L) k
                ++ if fn then [EvCallback match o with Rejected e => Some e | _ => None end]
                   else [])%list ∧
    ((∃ res, r = Fulfilled res ∧ truthy res = true ∧ o = Resolved ∧
             locks σ' = <[l := locked_on L key]> (locks σ) ∧
             _acquiredLocks σ' = <[lock_id L := l]> (_acquiredLocks σ)) ∨
     (∃ e, o = Rejected e ∧
           (r = Failed e ∨
            ∃ res, r = Fulfilled res ∧ truthy res = false ∧
                   lock_retries L = Z.of_nat k ∧
                   e = LockAcquisitionError ("Could not acquire lock on " +:+ key)) ∧
           locks σ' = locks σ ∧ _acquiredLocks σ' = _acquiredLocks σ)).
Proof.
  intros Hl Hunlocked Hacq. unfold acquire in Hacq. rewrite Hl, Hunlocked in Hacq.
  destruct (_attemptLock fuel l key (lock_retries L) σ w) as [[[o1|] σ1] w1] eqn:Hrun;
    [|done].
  destruct (_attemptLock_settled fuel _ _ _ L _ _ _ _ _ Hl Hrun)
    as (k & Hrefused & -> & r & Hlast & Hcases).
  exists k, r.
  destruct Hcases as [(res & -> & Hres & ->)|[(e & -> & ->)|(res & -> & Hres & Hk & ->)]];
    injection Hacq as <- <- <-; (split; [done|]); (split; [done|]);
    rewrite nodeify_trace, nodeify_locks, nodeify_acquiredLocks.
  - destruct (acquire_then_locks
                (log_all (retry_trace (lock_client L) key (lock_id L) (lock_timeout L)
                            (lock_delay L) k) σ) l L key Hl) as (-> & -> & ->).
    simpl. split; [by rewrite <- app_assoc|]. left. by exists res.
  - simpl. split; [by rewrite <- app_assoc|]. right. exists e. split_and!; try done. by left.
  - simpl. split; [by rewrite <- app_assoc|]. right. eexists. split_and!; try done.
    right. by exists res.
Qed.

(** [_attemptLock] only adds calls to the trace. *)
Lemma _attemptLock_state (fuel : nat) : ∀ σ w l key retries,
  ∃ evs, (_attemptLock fuel l key retries σ w).1.2 = log_all evs σ.
Proof.
  induction fuel as [|fuel IH]; intros σ w l key retries; simpl.
  - exists []. by rewrite log_all_nil.
  - destruct (locks σ !! l) as [L|]; [|exists []; by rewrite log_all_nil].
    destruct (client_setAsync _ _ _ _ _) as [[res|e] w2]; [|by eexists [_]].
    destruct (attemptLock_then key retries res); [by eexists [_]|by eexists [_]|].
    edestruct IH as (evs & ->). rewrite !log_log_all. by eexists.
Qed.

(** Whatever [acquire] does and however far it gets, it changes nothing in
    the process but the trace of calls and, if it goes through, this Lock's
    flag and key and the entry under its id in [Lock._acquiredLocks]. *)
Lemma acquire_frame σ w l key fn fuel :
  let σ' := (acquire fuel l key fn σ w).1.2 in
  (locks σ' = locks σ ∧ _acquiredLocks σ' = _acquiredLocks σ) ∨
  (∃ L, locks σ !! l = Some L ∧ lock_locked L = false ∧
        locks σ' = <[l := locked_on L key]> (locks σ) ∧
        _acquiredLocks σ' = <[lock_id L := l]> (_acquiredLocks σ)).
Proof.
  unfold acquire. destruct (locks σ !! l) as [L|] eqn:Hl; [|by left].
  destruct (lock_locked L) eqn:Hunlocked; [by left|].
  destruct (_attemptLock fuel l key (lock_retries L) σ w) as [[o σ1] w1] eqn:Hrun.
  destruct (_attemptLock_state fuel σ w l key (lock_retries L)) as (evs & Hevs).
  rewrite Hrun in Hevs. simpl in Hevs. subst σ1.
  destruct o as [[| |]|]; simpl; rewrite ?nodeify_locks, ?nodeify_acquiredLocks;
    try by left.
  right. exists L. split_and!; try done;
    by destruct (acquire_then_locks (log_all evs σ) l L key Hl) as (? & ? & ?).
Qed.

Lemma release_then_locks σ l L key res :
  locks σ !! l = Some L →
  locks (release_then l key res σ).2 = <[l := cleared L]> (locks σ) ∧
  _acquiredLocks (release_then l key res σ).2 = _acquiredLocks σ ∧
  trace (release_then l key res σ).2 = trace σ.
Proof. intros Hl. unfold release_then. rewrite Hl. by destruct (negb (truthy res)). Qed.

(** Whatever [release] does, it changes nothing in the process but the
    trace of calls and, once the script has answered, this Lock's flag and
    key. *)
Lemma release_frame σ w l fn :
  let σ' := (release l fn σ w).1.2 in
  _acquiredLocks σ' = _acquiredLocks σ ∧
  (locks σ' = locks σ ∨
   ∃ L, locks σ !! l = Some L ∧ lock_locked L = true ∧
        locks σ' = <[l := cleared L]> (locks σ)).
Proof.
  split; [apply release_keeps_acquiredLocks|].
  unfold release. destruct (locks σ !! l) as [L|] eqn:Hl; [|by left].
  destruct (lock_locked L) eqn:Hlocked; simpl; [|by left].
  destruct (shaval_execAsync _ _ _ _ _) as [[res|e] w1]; simpl.
  - right. exists L. split_and!; try done.
    destruct (release_then l (lock_key L) res _) as [o σ2] eqn:Hthen. simpl.
    rewrite nodeify_locks.
    change σ2 with (o, σ2).2. rewrite <- Hthen.
    by destruct (release_then_locks
                   (log (EvExecAsync (lock_shavaluator L) "delifequal"
                           [key_arg (lock_key L)] [lock_id L]) σ) l L (lock_key L) res Hl)
      as (-> & _).
  - left. by rewrite nodeify_locks.
Qed.

Lemma distinct_ids_same_ids σ σ' :
  (∀ l L', locks σ' !! l = Some L' →
           ∃ L, locks σ !! l = Some L ∧ lock_id L = lock_id L') →
  distinct_ids σ → distinct_ids σ'.
Proof.
  intros Hids Hdist l1 l2 L1 L2 H1 H2 Hid.
  destruct (Hids _ _ H1) as (L1' & H1' & Hid1), (Hids _ _ H2) as (L2' & H2' & Hid2).
  apply (Hdist l1 l2 L1' L2' H1' H2'). congruence.
Qed.

Lemma coherent_locked_on σ σ' l L key :
  coherent σ →
  locks σ !! l = Some L →
  locks σ' = <[l := locked_on L key]> (locks σ) →
  _acquiredLocks σ' = <[lock_id L := l]> (_acquiredLocks σ) →
  coherent σ'.
Proof.
  intros [Hdist Hreg] Hl Hlocks Hacq. split.
  - apply (distinct_ids_same_ids σ); [|done]. intros l' L' HL'. rewrite Hlocks in HL'.
    apply lookup_insert_Some in HL' as [[<- <-]|[_ HL']]; by eexists.
  - intros l' L' HL' Hlocked. rewrite Hlocks in HL'. rewrite Hacq.
    apply lookup_insert_Some in HL' as [[<- <-]|[Hne HL']]; simpl.
    + split; [by eexists|]. apply lookup_insert_eq.
    + destruct (Hreg l' L' HL' Hlocked) as [Hkey Hin]. split; [done|].
      rewrite lookup_insert_ne; [done|]. intros Hid. apply Hne.
      by apply (Hdist l l' L L').
Qed.

Lemma coherent_cleared σ σ' l L :
  coherent σ →
  locks σ !! l = Some L →
  locks σ' = <[l := cleared L]> (locks σ) →
  _acquiredLocks σ' = _acquiredLocks σ →
  coherent σ'.
Proof.
  intros [Hdist Hreg] Hl Hlocks Hacq. split.
  - apply (distinct_ids_same_ids σ); [|done]. intros l' L' HL'. rewrite Hlocks in HL'.
    apply lookup_insert_Some in HL' as [[<- <-]|[_ HL']]; by eexists.
  - intros l' L' HL' Hlocked. rewrite Hlocks in HL'. rewrite Hacq.
    apply lookup_insert_Some in HL' as [[<- <-]|[Hne HL']]; [done|].
    by apply Hreg.
Qed.

(** X3.  [acquire] and [release] keep the bookkeeping together, whatever the
    store answers and however far they get: the ids of the Locks stay
    different, and every Lock whose flag is set has a key and is in
    [Lock._acquiredLocks] under its id. *)
Theorem acquire_release_keep_coherent σ w l key fn fuel :
  coherent σ →
  coherent (acquire fuel l key fn σ w).1.2 ∧ coherent (release l fn σ w).1.2.
Proof.
  intros Hco. split.
  - destruct (acquire_frame σ w l key fn fuel) as [[Hlocks Hacq]|(L & Hl & _ & Hlocks & Hacq)].
    + destruct Hco as [Hdist Hreg]. split.
      * intros l1 l2 L1 L2. rewrite Hlocks. apply Hdist.
      * intros l' L'. rewrite Hlocks, Hacq. apply Hreg.
    + by apply (coherent_locked_on σ _ l L key).
  - destruct (release_frame σ w l fn) as [Hacq [Hlocks|(L & Hl & _ & Hlocks)]].
    + destruct Hco as [Hdist Hreg]. split.
      * intros l1 l2 L1 L2. rewrite Hlocks. apply Hdist.
      * intros l' L'. rewrite Hlocks, Hacq. apply Hreg.
    + by apply (coherent_cleared σ _ l L).
Qed.

(** X4.  A transport failure of the script call leaves the Lock locked, with its
    key: [release] is rejected with that very error and can be called
    again; when the script then answers with a truthy value, the second
    [release] is fulfilled and the Lock is cleared. *)
Theorem release_retried_after_transport_error σ w l L fn e w1 res w2 :
  locks σ !! l = Some L →
  lock_locked L = true →
  shaval_execAsync (lock_shavaluator L) "delifequal"
    [key_arg (lock_key L)] [lock_id L] w = (Failed e, w1) →
  shaval_execAsync (lock_shavaluator L) "delifequal"
    [key_arg (lock_key L)] [lock_id L] w1 = (Fulfilled res, w2) →
  truthy res = true →
  ∃ σ1 σ2,
    release l fn σ w = (Rejected e, σ1, w1) ∧
    locks σ1 = locks σ ∧
    release l fn σ1 w1 = (Resolved, σ2, w2) ∧
    locks σ2 = <[l := cleared L]> (locks σ) ∧
    _acquiredLocks σ2 = _acquiredLocks σ.
Proof.
  intros Hl Hlocked Hfail Hok Hres.
  assert (release l fn σ w =
            (Rejected e,
             nodeify fn (Rejected e)
               (log (EvExecAsync (lock_shavaluator L) "delifequal"
                       [key_arg (lock_key L)] [lock_id L]) σ), w1)) as Hfirst.
  { unfold release. by rewrite Hl, Hlocked, Hfail. }
  eexists _, _. split; [exact Hfirst|]. split; [by rewrite nodeify_locks|].
  assert (locks (nodeify fn (Rejected e)
                   (log (EvExecAsync (lock_shavaluator L) "delifequal"
                           [key_arg (lock_key L)] [lock_id L]) σ)) !! l = Some L) as Hl1
    by by rewrite nodeify_locks.
  rewrite (release_fulfilled _ _ _ _ _ _ _ Hl1 Hlocked Hok).
  unfold release_then at 1 2. rewrite Hres. simpl.
  split; [reflexivity|].
  rewrite nodeify_locks, nodeify_acquiredLocks.
  match goal with |- context [release_then ?a ?b ?c ?d] =>
    destruct (release_then_locks d a L b c) as (-> & -> & _) end.
  - simpl. by rewrite nodeify_locks.
  - simpl. by rewrite !nodeify_locks, !nodeify_acquiredLocks.
Qed.

End Operations_more.

(** * Further properties of the constructor *)

Lemma promisify_events_setup c commands : ∀ am,
  Forall (λ e, is_setup_event e = true) (promisify_events c am commands).
Proof.
  induction commands as [|m rest IH]; intros am; simpl; [constructor|].
  destruct (am !! (m +:+ "Async")); [apply IH|]. constructor; [done|apply IH].
Qed.

Section Construction_more.

Variable uuid_v1 : nat → string.
Implicit Types (σ : state) (c : ref) (co : client_obj).

#[local] Arguments foldl : simpl never.
#[local] Arguments promisify_events : simpl never.

(** What [_setupClient] does, on any connection in any state. *)
Lemma _setupClient_spec σ c co :
  clients σ !! c = Some co →
  let id := identity_at uuid_v1 (uuid_count σ) co in
  ∃ (r : jsobj) σ1 am evs,
    _setupClient uuid_v1 c σ = Some (r, σ1) ∧
    clients σ1 = <[c := {| connection_id := id; async_methods := am |}]> (clients σ) ∧
    get_property (_promisifiedClients σ1) (to_key id) = Some r ∧
    _promisifiedClients σ ⊆ _promisifiedClients σ1 ∧
    dom (_promisifiedClients σ1) =
      (if inherited (to_key id) then ∅ else {[to_key id]}) ∪ dom (_promisifiedClients σ) ∧
    locks σ1 = locks σ ∧ shavals σ1 = shavals σ ∧
    _shavaluators σ1 = _shavaluators σ ∧ _acquiredLocks σ1 = _acquiredLocks σ ∧
    _defaults σ1 = _defaults σ ∧
    (uuid_count σ ≤ uuid_count σ1)%nat ∧
    trace σ1 = (trace σ ++ evs)%list ∧
    Forall (λ e, is_setup_event e = true) evs.
Proof.
  intros Hc id.
  destruct (get_property (_promisifiedClients σ) (to_key id)) as [r|] eqn:Hreg.
  - exists r. pose proof (get_property_dom _ _ _ Hreg) as Hdom.
    subst id. unfold identity_at in *. unfold _setupClient. rewrite Hc. simpl.
    destruct (truthy (connection_id co)) eqn:Hid; simpl in *; rewrite Hreg;
      eexists _, (async_methods co), []; (split; [reflexivity|]); simpl;
      rewrite app_nil_r; split_and!; try done; try lia.
    destruct co. simpl. by rewrite insert_id.
  - apply get_property_None in Hreg as [Hfree Hown].
    rewrite (_setupClient_first uuid_v1 σ c co Hc Hfree Hown). fold id.
    eexists (At c), _, _, _. split; [reflexivity|]. simpl.
    rewrite Hown, (get_property_own _ _ c) by apply lookup_insert_eq.
    destruct (truthy (connection_id co)); simpl;
      (split_and!; try done; try lia;
       first [by apply insert_subseteq|by rewrite dom_insert_L|apply promisify_events_setup]).
Qed.

(** What [_setupLuaScripts] does, on any connection in any state. *)
Lemma _setupLuaScripts_spec σ c co :
  clients σ !! c = Some co →
  let key := to_key (connection_id co) in
  ∃ (sh : jsobj) σ1 evs,
    _setupLuaScripts c σ = Some (sh, σ1) ∧
    get_property (_shavaluators σ1) key = Some sh ∧
    _shavaluators σ ⊆ _shavaluators σ1 ∧
    dom (_shavaluators σ1) = (if inherited key then ∅ else {[key]}) ∪ dom (_shavaluators σ) ∧
    locks σ1 = locks σ ∧ clients σ1 = clients σ ∧
    _promisifiedClients σ1 = _promisifiedClients σ ∧ _acquiredLocks σ1 = _acquiredLocks σ ∧
    _defaults σ1 = _defaults σ ∧ uuid_count σ1 = uuid_count σ ∧
    trace σ1 = (trace σ ++ evs)%list ∧
    Forall (λ e, is_setup_event e = true) evs.
Proof.
  intros Hc key. unfold _setupLuaScripts. rewrite Hc. simpl. fold key.
  destruct (get_property (_shavaluators σ) key) as [sh|] eqn:Hreg.
  - exists sh, σ, []. rewrite app_nil_r. split_and!; try done.
    by apply get_property_dom in Hreg.
  - apply get_property_None in Hreg as [Hfree Hown].
    eexists _, _, [_; _; _]. split; [reflexivity|]. simpl.
    rewrite Hown, (get_property_own _ _ (fresh (dom (shavals σ)))) by apply lookup_insert_eq.
    split_and!; try done.
    + by apply insert_subseteq.
    + by rewrite dom_insert_L.
    + by rewrite <- !app_assoc.
    + by repeat constructor.
Qed.

(** What [new Lock] does, on any connection in any state. *)
Lemma Lock_spec σ c co opts :
  clients σ !! c = Some co →
  let id := identity_at uuid_v1 (S (uuid_count σ)) co in
  ∃ σ' (r sh : jsobj) am evs,
    Lock uuid_v1 c opts σ = Some (fresh (dom (locks σ)), σ') ∧
    locks σ' =
      <[fresh (dom (locks σ)) :=
          {| lock_id := uuid_v1 (uuid_count σ); lock_locked := false; lock_key := None;
             lock_client := r; lock_shavaluator := sh;
             lock_timeout := option_or_default opts opt_timeout (timeout (_defaults σ));
             lock_retries := option_or_default opts opt_retries (retries (_defaults σ));
             lock_delay := option_or_default opts opt_delay (delay (_defaults σ)) |}]>
        (locks σ) ∧
    clients σ' = <[c := {| connection_id := id; async_methods := am |}]> (clients σ) ∧
    get_property (_promisifiedClients σ') (to_key id) = Some r ∧
    get_property (_shavaluators σ') (to_key id) = Some sh ∧
    _promisifiedClients σ ⊆ _promisifiedClients σ' ∧
    _shavaluators σ ⊆ _shavaluators σ' ∧
    dom (_promisifiedClients σ') =
      (if inherited (to_key id) then ∅ else {[to_key id]}) ∪ dom (_promisifiedClients σ) ∧
    dom (_shavaluators σ') =
      (if inherited (to_key id) then ∅ else {[to_key id]}) ∪ dom (_shavaluators σ) ∧
    _acquiredLocks σ' = _acquiredLocks σ ∧ _defaults σ' = _defaults σ ∧
    (uuid_count σ < uuid_count σ')%nat ∧
    trace σ' = (trace σ ++ evs)%list ∧
    Forall (λ e, is_setup_event e = true) evs.
Proof.
  intros Hc id. unfold Lock, uuid.
  destruct (_setupClient_spec (set_uuid_count (S (uuid_count σ)) σ) c co Hc)
    as (r & σ1 & am & evs1 & -> & Hc1 & Hp1 & Hps1 & Hpd1 & Hl1 & Hsv1 & Hs1 & Ha1 & Hd1
        & Hu1 & Ht1 & Hev1).
  simpl in *. fold id in Hc1, Hp1, Hpd1.
  destruct (_setupLuaScripts_spec σ1 c {| connection_id := id; async_methods := am |})
    as (sh & σ2 & evs2 & -> & Hs2 & Hss2 & Hsd2 & Hl2 & Hc2 & Hp2 & Ha2 & Hd2 & Hu2
        & Ht2 & Hev2); [by rewrite Hc1, lookup_insert_eq|].
  simpl in *. eexists _, r, sh, am, (evs1 ++ evs2)%list.
  rewrite Hl2, Hl1, Hd2, Hd1. split; [reflexivity|]. simpl.
  rewrite Hl2, Hl1, Hc2, Hc1, Hp2, Hs2, Ha2, Ha1, Hd2, Hd1, Hu2, Ht2, Ht1, Hsd2, Hpd1.
  split_and!; try done.
  - by rewrite <- Hs1.
  - by rewrite Hs1.
  - by rewrite <- app_assoc.
  - by apply Forall_app.
Qed.

(** X5.  Construction on a connection object always goes through: the new Lock
    sits at an address no Lock had, its id is the next identifier of
    [uuid.v1], its flag is clear and its key null, each of its three
    settings is the option if given and the current default if not; the
    Locks there were and [Lock._acquiredLocks] are untouched, and every call
    made is one on bluebird or redis-evalsha: nothing is sent to the store. *)
Theorem Lock_constructs σ c co opts :
  clients σ !! c = Some co →
  ∃ l σ' L evs,
    Lock uuid_v1 c opts σ = Some (l, σ') ∧
    locks σ !! l = None ∧
    locks σ' = <[l := L]> (locks σ) ∧
    lock_id L = uuid_v1 (uuid_count σ) ∧
    lock_locked L = false ∧ lock_key L = None ∧
    lock_timeout L = match opts with
                     | Some o => default (timeout (_defaults σ)) (opt_timeout o)
                     | None => timeout (_defaults σ)
                     end ∧
    lock_retries L = match opts with
                     | Some o => default (retries (_defaults σ)) (opt_retries o)
                     | None => retries (_defaults σ)
                     end ∧
    lock_delay L = match opts with
                   | Some o => default (delay (_defaults σ)) (opt_delay o)
                   | None => delay (_defaults σ)
                   end ∧
    _acquiredLocks σ' = _acquiredLocks σ ∧
    _defaults σ' = _defaults σ ∧
    trace σ' = (trace σ ++ evs)%list ∧
    Forall (λ e, is_setup_event e = true) evs.
Proof.
  intros Hc.
  destruct (Lock_spec σ c co opts Hc)
    as (σ' & r & sh & am & evs & HLock & Hlocks & _ & _ & _ & _ & _ & _ & _ & Hacq & Hdef
        & _ & Htrace & Hevs).
  eexists _, σ', _, evs. split; [exact HLock|].
  split; [apply not_elem_of_dom, is_fresh|].
  split; [exact Hlocks|]. simpl. by destruct opts.
Qed.

(** X6.  After a construction the connection object has a [connection_id]: the
    one it had if that was truthy, the next identifier of [uuid.v1]
    otherwise (for a missing one, and as well for 0, the empty string or
    null); unless that identity is a name that plain objects inherit, the
    connection is in both registries under it; and no other connection
    object is touched. *)
Theorem construction_sets_identity σ c co opts :
  clients σ !! c = Some co →
  ∃ l σ' co',
    Lock uuid_v1 c opts σ = Some (l, σ') ∧
    clients σ' !! c = Some co' ∧
    connection_id co' = (if truthy (connection_id co) then connection_id co
                         else JStr (uuid_v1 (S (uuid_count σ)))) ∧
    (inherited (to_key (connection_id co')) = false →
       is_Some (_promisifiedClients σ' !! to_key (connection_id co')) ∧
       is_Some (_shavaluators σ' !! to_key (connection_id co'))) ∧
    (∀ c', c' ≠ c → clients σ' !! c' = clients σ !! c').
Proof.
  intros Hc.
  destruct (Lock_spec σ c co opts Hc)
    as (σ' & r & sh & am & evs & HLock & _ & Hclients & Hp & Hs & _).
  eexists _, σ', _. split; [exact HLock|]. rewrite Hclients, lookup_insert_eq.
  split; [reflexivity|]. simpl. split_and!.
  - done.
  - intros Hown.
    destruct (get_property_Some _ _ _ Hp Hown) as (r0 & -> & _).
    destruct (get_property_Some _ _ _ Hs Hown) as (sh0 & -> & _). by split.
  - intros c' Hne. by rewrite lookup_insert_ne.
Qed.

(** X7.  The two registries are filled together and never emptied: if they have
    the same identities before a construction they have the same after it,
    and every entry they had is still there, unchanged. *)
Theorem registries_grow_together σ c opts l σ' :
  dom (_promisifiedClients σ) = dom (_shavaluators σ) →
  Lock uuid_v1 c opts σ = Some (l, σ') →
  dom (_promisifiedClients σ') = dom (_shavaluators σ') ∧
  _promisifiedClients σ ⊆ _promisifiedClients σ' ∧
  _shavaluators σ ⊆ _shavaluators σ'.
Proof.
  intros Hdom HLock.
  destruct (clients σ !! c) as [co|] eqn:Hc.
  - destruct (Lock_spec σ c co opts Hc)
      as (σ2 & r & sh & am & evs & HLock' & _ & _ & _ & _ & Hps & Hss & Hpd & Hsd & _).
    rewrite HLock' in HLock. injection HLock as _ <-.
    split_and!; try done. by rewrite Hpd, Hsd, Hdom.
  - unfold Lock, uuid, _setupClient in HLock. simpl in HLock.
    by rewrite Hc in HLock.
Qed.

(** X8.  Identity is the property key of [connection_id], not the object: a
    construction on a connection object whose identity is registered (by
    another object, possibly, whose [connection_id] prints the same) builds
    a Lock on the registered connection and the registered Shavaluator; the
    object passed in is given no async method, and nothing is called. *)
Theorem same_identity_shares_connection σ c1 c2 co1 co2 (sh : ref) opts :
  clients σ !! c1 = Some co1 →
  clients σ !! c2 = Some co2 →
  truthy (connection_id co2) = true →
  to_key (connection_id co2) = to_key (connection_id co1) →
  _promisifiedClients σ !! to_key (connection_id co1) = Some c1 →
  _shavaluators σ !! to_key (connection_id co1) = Some sh →
  ∃ l σ' L,
    Lock uuid_v1 c2 opts σ = Some (l, σ') ∧
    locks σ' !! l = Some L ∧
    lock_client L = At c1 ∧ lock_shavaluator L = At sh ∧
    clients σ' = clients σ ∧ trace σ' = trace σ.
Proof.
  intros Hc1 Hc2 Hid Hkey Hp Hs.
  assert (registered c2 σ c1 sh) as Hreg.
  { exists co2. rewrite Hkey. by split_and!. }
  rewrite (Lock_registered uuid_v1 σ c2 c1 sh opts Hreg).
  eexists _, _, _. split; [reflexivity|]. simpl.
  split; [apply lookup_insert_eq|]. done.
Qed.

Lemma initial_state_coherent cs :
  ids_drawn uuid_v1 (initial_state cs) ∧ coherent (initial_state cs).
Proof.
  split; [|split].
  - intros l L HL. simpl in HL. by rewrite lookup_empty in HL.
  - intros l1 l2 L1 L2 H1. simpl in H1. by rewrite lookup_empty in H1.
  - intros l L HL. simpl in HL. by rewrite lookup_empty in HL.
Qed.

(** One construction keeps the bookkeeping of the Locks together. *)
Lemma Lock_keeps_coherent σ c opts l σ' :
  (∀ n m, uuid_v1 n = uuid_v1 m → n = m) →
  ids_drawn uuid_v1 σ →
  coherent σ →
  Lock uuid_v1 c opts σ = Some (l, σ') →
  ids_drawn uuid_v1 σ' ∧ coherent σ'.
Proof.
  intros Hinj Hdrawn [Hdist Hreg] HLock.
  destruct (clients σ !! c) as [co|] eqn:Hc.
  2: { unfold Lock, uuid, _setupClient in HLock. simpl in HLock. by rewrite Hc in HLock. }
  destruct (Lock_spec σ c co opts Hc)
    as (σ2 & r & sh & am & evs & HLock' & Hlocks & _ & _ & _ & _ & _ & _ & _ & Hacq & _
        & Hcount & _).
  rewrite HLock' in HLock. injection HLock as <- <-.
  assert (locks σ !! fresh (dom (locks σ)) = None) as Hfresh
    by apply not_elem_of_dom, is_fresh.
  split; [|split].
  - intros l' L' HL'. rewrite Hlocks in HL'.
    apply lookup_insert_Some in HL' as [[<- <-]|[_ HL']]; simpl.
    + exists (uuid_count σ). split; [lia|done].
    + destruct (Hdrawn l' L' HL') as (n & Hn & Hid). exists n. split; [lia|done].
  - intros l1 l2 L1 L2 H1 H2 Hid. rewrite Hlocks in H1, H2.
    apply lookup_insert_Some in H1 as [[Hl1 HL1]|[Hne1 H1]];
      apply lookup_insert_Some in H2 as [[Hl2 HL2]|[Hne2 H2]].
    + congruence.
    + subst L1. simpl in Hid. destruct (Hdrawn l2 L2 H2) as (n & Hn & Hid2).
      rewrite Hid2 in Hid. apply Hinj in Hid. lia.
    + subst L2. simpl in Hid. destruct (Hdrawn l1 L1 H1) as (n & Hn & Hid1).
      rewrite Hid1 in Hid. apply Hinj in Hid. lia.
    + by apply (Hdist l1 l2 L1 L2).
  - intros l' L' HL' Hlocked. rewrite Hlocks in HL'. rewrite Hacq.
    apply lookup_insert_Some in HL' as [[_ <-]|[_ HL']]; [done|].
    by apply Hreg.
Qed.

Lemma Lock_keeps_unlocked σ c opts l σ' :
  (∀ l L, locks σ !! l = Some L → lock_locked L = false) →
  Lock uuid_v1 c opts σ = Some (l, σ') →
  ∀ l L, locks σ' !! l = Some L → lock_locked L = false.
Proof.
  intros Hunlocked HLock.
  destruct (clients σ !! c) as [co|] eqn:Hc.
  2: { unfold Lock, uuid, _setupClient in HLock. simpl in HLock. by rewrite Hc in HLock. }
  destruct (Lock_spec σ c co opts Hc) as (σ2 & r & sh & am & evs & HLock' & Hlocks & _).
  rewrite HLock' in HLock. injection HLock as <- <-.
  intros l' L' HL'. rewrite Hlocks in HL'.
  apply lookup_insert_Some in HL' as [[_ <-]|[_ HL']]; [done|]. by eapply Hunlocked.
Qed.

(** X9.  With an identifier generator that never repeats itself, the Locks a
    program builds, on whatever connections and with whatever options, all
    have different ids, clear flags and nothing under way: together with
    any store they are a system as [initial] describes it. *)
Theorem constructed_locks_are_initial cs calls ls σ store :
  (∀ n m, uuid_v1 n = uuid_v1 m → n = m) →
  construct_seq uuid_v1 calls (initial_state cs) = Some (ls, σ) →
  initial {| sys_state := σ; sys_store := store; sys_tasks := ∅; sys_settled := [] |} ∧
  coherent σ ∧
  length ls = length calls.
Proof.
  intros Hinj Hrun.
  assert (∀ calls σ0 ls σ,
            ids_drawn uuid_v1 σ0 → coherent σ0 →
            (∀ l L, locks σ0 !! l = Some L → lock_locked L = false) →
            construct_seq uuid_v1 calls σ0 = Some (ls, σ) →
            coherent σ ∧ (∀ l L, locks σ !! l = Some L → lock_locked L = false) ∧
            length ls = length calls) as Hgen.
  { clear calls ls σ Hrun. induction calls as [|[c opts] rest IH];
      intros σ0 ls σ Hdrawn Hco Hunlocked Hrun; simpl in Hrun.
    - by injection Hrun as <- <-.
    - destruct (Lock uuid_v1 c opts σ0) as [[l σ1]|] eqn:HLock; [|done]. simpl in Hrun.
      destruct (construct_seq uuid_v1 rest σ1) as [[ls' σ2]|] eqn:Hrest; [|done].
      simpl in Hrun. injection Hrun as <- <-.
      destruct (Lock_keeps_coherent σ0 c opts l σ1 Hinj Hdrawn Hco HLock) as [Hdrawn1 Hco1].
      destruct (IH σ1 ls' σ2 Hdrawn1 Hco1
                  (Lock_keeps_unlocked σ0 c opts l σ1 Hunlocked HLock) Hrest)
        as (? & ? & Hlen).
      split_and!; try done. simpl. by rewrite Hlen. }
  destruct (initial_state_coherent cs) as [Hdrawn0 Hco0].
  destruct (Hgen calls (initial_state cs) ls σ Hdrawn0 Hco0) as (Hco & Hunlocked & Hlen);
    [|done|].
  { intros l L HL. simpl in HL. by rewrite lookup_empty in HL. }
  split_and!; try done. by destruct Hco.
Qed.

End Construction_more.

(** * Further properties of Locks against the store *)

Lemma cleared_unlocked L :
  lock_locked L = false → lock_key L = None → cleared L = L.
Proof. destruct L; simpl; by intros -> ->. Qed.

(** The two steps of a [release] by a Lock that has nothing under way and
    whose flag is set. *)
Lemma release_steps s l L :
  locks (sys_state s) !! l = Some L →
  lock_locked L = true →
  task_of s l = Idle →
  let r := delifequal (key_arg (lock_key L)) (lock_id L) (sys_store s) in
  let s' := run [CallRelease l; Settle l] s in
  sys_store s' = r.2 ∧
  locks (sys_state s') = <[l := cleared L]> (locks (sys_state s)) ∧
  _acquiredLocks (sys_state s') = _acquiredLocks (sys_state s) ∧
  sys_settled s' =
    (sys_settled s ++
       [(l, if truthy r.1 then Resolved
            else Rejected (LockReleaseError
                             ("Lock on " +:+ key_arg (lock_key L) +:+ " has expired")))])%list ∧
  (∀ l', task_of s' l' = if decide (l' = l) then Idle else task_of s l').
Proof.
  intros HL Hlocked Hidle r s'. subst s'.
  change (run [CallRelease l; Settle l] s) with (step (Settle l) (step (CallRelease l) s)).
  rewrite (step_call_release s l L HL Hlocked Hidle). cbv zeta. fold r.
  match goal with |- context [step _ ?s0] => set (s1 := s0) end.
  rewrite (step_settle_exec s1 l L (lock_key L) r.1 HL)
    by (subst s1; by rewrite task_of_insert, decide_True).
  subst s1. unfold release_then. simpl. rewrite HL.
  destruct (truthy r.1); simpl; (split_and!; try done; intros l';
    unfold task_of; simpl; destruct (decide (l' = l)) as [->|Hne];
    [by rewrite lookup_insert_eq|by rewrite !lookup_insert_ne]).
Qed.

(** X10.  Along every orderly run (one operation at a time on each Lock, no
    expiry of [K], no lost answer to a [release] of [K]), a Lock that is in
    the locked state for [K] is the one whose id the store holds at [K];
    its [release] is therefore fulfilled: the key is deleted from the store
    and the Lock is cleared. *)
Theorem holder_owns_key_and_releases s0 acts K a :
  initial s0 →
  orderly K acts s0 →
  let s := run acts s0 in
  in_locked_state s a K →
  ∃ A, locks (sys_state s) !! a = Some A ∧
       sys_store s !! K = Some (lock_id A) ∧
       let s' := run [CallRelease a; Settle a] s in
       sys_settled s' = (sys_settled s ++ [(a, Resolved)])%list ∧
       sys_store s' = delete K (sys_store s) ∧
       locks (sys_state s') !! a = Some (cleared A) ∧
       task_of s' a = Idle.
Proof.
  intros Hinit Hord s Ha.
  assert (exclusive K s) as Hex by by apply run_exclusive, initial_exclusive.
  destruct (in_locked_state_store K s a Hex Ha) as (A & HA & Hstore).
  destruct Ha as (A' & HA' & Hlocked & Hkey & Hidle).
  rewrite HA in HA'. injection HA' as <-.
  exists A. split; [done|]. split; [done|].
  destruct (release_steps s a A HA Hlocked Hidle) as (Hst & Hlocks & _ & Hsettled & Htasks).
  rewrite Hkey in Hst, Hsettled. simpl in Hst, Hsettled.
  unfold delifequal in Hst, Hsettled. rewrite decide_True in Hst, Hsettled by done.
  simpl in *. split_and!; try done.
  - by rewrite Hlocks, lookup_insert_eq.
  - by rewrite Htasks, decide_True.
Qed.

(** X11.  A [release] by a Lock whose id is not (or no longer) the value at its
    key deletes nothing: the store is left as it is, whoever holds the key
    now keeps it, the Lock is cleared and the promise is rejected with a
    LockReleaseError. *)
Theorem stale_release_spares_the_store s a A K :
  locks (sys_state s) !! a = Some A →
  lock_locked A = true →
  lock_key A = Some K →
  task_of s a = Idle →
  sys_store s !! K ≠ Some (lock_id A) →
  let s' := run [CallRelease a; Settle a] s in
  sys_store s' = sys_store s ∧
  sys_settled s' =
    (sys_settled s ++
       [(a, Rejected (LockReleaseError ("Lock on " +:+ K +:+ " has expired")))])%list ∧
  locks (sys_state s') !! a = Some (cleared A) ∧
  (∀ b, b ≠ a → locks (sys_state s') !! b = locks (sys_state s) !! b ∧
                 task_of s' b = task_of s b).
Proof.
  intros HA Hlocked Hkey Hidle Hstale.
  destruct (release_steps s a A HA Hlocked Hidle) as (Hst & Hlocks & _ & Hsettled & Htasks).
  rewrite Hkey in Hst, Hsettled. simpl in Hst, Hsettled.
  unfold delifequal in Hst, Hsettled. rewrite decide_False in Hst, Hsettled by done.
  simpl in *. split_and!; try done.
  - by rewrite Hlocks, lookup_insert_eq.
  - intros b Hne. rewrite Hlocks, lookup_insert_ne by done.
    by rewrite Htasks, decide_False.
Qed.

(** X12.  Round trip against the store: on a free key, a Lock that holds nothing
    acquires at the first attempt and the store has its id at the key; its
    [release] is fulfilled and gives back the store and the Locks exactly
    as they were; and the Lock can acquire again. *)
Theorem acquire_release_round_trip σ (w : gmap string string) l L key :
  locks σ !! l = Some L →
  lock_locked L = false →
  lock_key L = None →
  w !! key = None →
  ∃ σ1 σ2 σ3 w3,
    acquire 1 l key false σ w = (Some Resolved, σ1, <[key := lock_id L]> w) ∧
    locks σ1 !! l = Some (locked_on L key) ∧
    release l false σ1 (<[key := lock_id L]> w) = (Resolved, σ2, w) ∧
    locks σ2 = locks σ ∧
    acquire 1 l key false σ2 w = (Some Resolved, σ3, w3) ∧
    w3 !! key = Some (lock_id L).
Proof.
  intros Hl Hunlocked Hkey Hfree.
  assert (∀ τ, locks τ !! l = Some L →
            ∃ τ', acquire 1 l key false τ w = (Some Resolved, τ', <[key := lock_id L]> w) ∧
                  locks τ' = <[l := locked_on L key]> (locks τ) ∧
                  _acquiredLocks τ' = <[lock_id L := l]> (_acquiredLocks τ)) as Hacquire.
  { intros τ Hτ. unfold acquire. rewrite Hτ, Hunlocked.
    rewrite (_attemptLock_granted τ w l L key (lock_retries L) 0 (JStr "OK")
               (<[key := lock_id L]> w) Hτ);
      [|simpl; unfold store_set_nx; by rewrite Hfree|done].
    eexists. split; [reflexivity|]. simpl.
    by destruct (acquire_then_locks
                   (log (EvSetAsync (lock_client L) key (lock_id L) (lock_timeout L)) τ)
                   l L key Hτ) as (? & ? & _). }
  destruct (Hacquire σ Hl) as (σ1 & Hrun1 & Hlocks1 & Hacq1).
  assert (locks σ1 !! l = Some (locked_on L key)) as Hl1
    by by rewrite Hlocks1, lookup_insert_eq.
  destruct (release_frame σ1 (<[key := lock_id L]> w) l false) as [_ Hframe].
  pose proof (release_fulfilled σ1 (<[key := lock_id L]> w) l (locked_on L key) false
                (JNum 1) w Hl1 eq_refl) as Hrelease.
  simpl in Hrelease. unfold delifequal in Hrelease.
  rewrite decide_True, delete_insert_eq, delete_id in Hrelease
    by (done || apply lookup_insert_eq).
  specialize (Hrelease eq_refl). unfold release_then in Hrelease. simpl in Hrelease.
  rewrite Hl1 in Hrelease. simpl in Hrelease.
  assert (∀ m : gmap nat lock_obj,
            m !! l = Some L →
            <[l := {| lock_id := lock_id L; lock_locked := false; lock_key := None;
                      lock_client := lock_client L;
                      lock_shavaluator := lock_shavaluator L;
                      lock_timeout := lock_timeout L; lock_retries := lock_retries L;
                      lock_delay := lock_delay L |}]> (<[l := locked_on L key]> m) = m)
    as Hback.
  { intros m Hm. rewrite insert_insert_eq. apply insert_id. rewrite Hm. f_equal.
    destruct L; simpl in *. by subst. }
  match type of Hrelease with _ = (_, ?τ, _) => set (σ2 := τ) in * end.
  assert (locks σ2 = locks σ) as Hlocks2.
  { subst σ2. simpl. by rewrite Hlocks1, (Hback _ Hl). }
  destruct (Hacquire σ2) as (σ3 & Hrun3 & _); [by rewrite Hlocks2|].
  exists σ1, σ2, σ3, (<[key := lock_id L]> w).
  split_and!; try done. apply lookup_insert_eq.
Qed.

(** ** Concrete runs of the further properties *)

Lemma demo_uuid_inj n m : demo_uuid n = demo_uuid m → n = m.
Proof.
  unfold demo_uuid. intros H. simpl in H. injection H as H.
  by apply (inj pretty).
Qed.

Lemma initial_coherent s : initial s → coherent (sys_state s).
Proof.
  intros (_ & Hunlocked & Hdist). split; [done|].
  intros l L HL Hlocked. by rewrite (Hunlocked l L HL) in Hlocked.
Qed.

Lemma acquire_granted_after_refusals_witness :
  ∃ σ', @acquire nat busy_once_adapter 2 0%nat "K" true (process_with [retrying 2]) 0%nat
          = (Some Resolved, σ', 2%nat) ∧
        locks σ' = <[0%nat := locked_on (retrying_lock 2) "K"]>
                     (locks (process_with [retrying 2])) ∧
        _acquiredLocks σ' !! "uuid-0" = Some 0%nat.
Proof.
  edestruct (@acquire_granted_after_refusals nat busy_once_adapter
               (process_with [retrying 2]) 0%nat 0%nat (retrying_lock 2) "K" true
               1%nat 2%nat (JStr "OK") 2%nat)
    as (σ' & Hrun & Hlocks & Hacq & _);
    [vm_compute; reflexivity|reflexivity|right; simpl; lia| |reflexivity|reflexivity|lia|].
  - intros i Hi. assert (i = 0%nat) as -> by lia. by exists JNull.
  - exists σ'. split; [exact Hrun|]. split; [exact Hlocks|].
    rewrite Hacq. apply lookup_insert_eq.
Defined.

Lemma acquire_locks_only_when_granted_witness :
  ∃ (k : nat) r,
    @refused_before nat busy_once_adapter 0%nat "K" "uuid-0" 10000 5 k 0%nat ∧
    @client_setAsync nat busy_once_adapter 0%nat "K" "uuid-0" 10000
      (@world_before nat busy_once_adapter 0%nat "K" "uuid-0" 10000 5 k 0%nat) = (r, 2%nat) ∧
    ∃ res, r = Fulfilled res ∧ truthy res = true.
Proof.
  destruct (@acquire_locks_only_when_granted nat busy_once_adapter
              (process_with [retrying 2]) 0%nat 0%nat (retrying_lock 2) "K" false 2%nat
              Resolved
              (acquire_then 0%nat "K"
                 (log_all [EvSetAsync 0%nat "K" "uuid-0" 10000; EvDelay 5;
                           EvSetAsync 0%nat "K" "uuid-0" 10000]
                    (process_with [retrying 2])))
              2%nat)
    as (k & r & Hrefused & Hlast & _ & [(res & -> & Hres & _)|(e & He & _)]);
    [vm_compute; reflexivity|reflexivity|vm_compute; reflexivity| |discriminate].
  exists k, (Fulfilled res). split; [exact Hrefused|]. split; [exact Hlast|].
  by exists res.
Defined.

Lemma acquire_release_keep_coherent_witness :
  coherent (acquire 1 0%nat "K" false (sys_state two_locks) (∅ : gmap string string)).1.2 ∧
  coherent (release 0%nat false (sys_state two_locks) (∅ : gmap string string)).1.2.
Proof.
  apply acquire_release_keep_coherent, initial_coherent, two_locks_initial.
Defined.

Lemma release_retried_after_transport_error_witness :
  ∃ σ1 σ2,
    @release nat recovering_adapter 0%nat false held_by_0.1 0%nat
      = (Rejected (ExternalError "ETIMEDOUT"), σ1, 1%nat) ∧
    locks σ1 = locks held_by_0.1 ∧
    @release nat recovering_adapter 0%nat false σ1 1%nat = (Resolved, σ2, 2%nat) ∧
    locks σ2 = <[0%nat := cleared held_lock]> (locks held_by_0.1).
Proof.
  destruct (@release_retried_after_transport_error nat recovering_adapter
              held_by_0.1 0%nat 0%nat held_lock false (ExternalError "ETIMEDOUT") 1%nat
              (JNum 1) 2%nat)
    as (σ1 & σ2 & H1 & Hl1 & H2 & Hl2 & _);
    [vm_compute; reflexivity|reflexivity..|].
  by exists σ1, σ2.
Defined.

Lemma Lock_constructs_witness :
  ∃ l σ' L,
    Lock demo_uuid 0%nat (retrying 2) (initial_state {[ 0%nat := raw_client ]}) = Some (l, σ') ∧
    locks σ' = {[ l := L ]} ∧
    lock_id L = "uuid-0" ∧ lock_locked L = false ∧ lock_key L = None ∧
    lock_timeout L = 10000 ∧ lock_retries L = 2 ∧ lock_delay L = 5.
Proof.
  destruct (Lock_constructs demo_uuid (initial_state {[ 0%nat := raw_client ]})
              0%nat raw_client (retrying 2))
    as (l & σ' & L & evs & HLock & _ & Hlocks & Hid & Hlocked & Hkey & Ht & Hr & Hd & _);
    [reflexivity|].
  exists l, σ', L. by split_and!.
Defined.

Lemma construction_sets_identity_witness :
  ∃ l σ' co',
    Lock demo_uuid 0%nat None (initial_state {[ 0%nat := zero_client ]}) = Some (l, σ') ∧
    clients σ' !! 0%nat = Some co' ∧
    connection_id co' = JStr "uuid-1" ∧
    is_Some (_promisifiedClients σ' !! "uuid-1") ∧
    is_Some (_shavaluators σ' !! "uuid-1").
Proof.
  destruct (construction_sets_identity demo_uuid (initial_state {[ 0%nat := zero_client ]})
              0%nat zero_client None)
    as (l & σ' & co' & HLock & Hc & Hid & Hreg & _); [reflexivity|].
  exists l, σ', co'. simpl in Hid. rewrite Hid in Hreg.
  destruct (Hreg eq_refl) as [Hp Hs]. by split_and!.
Defined.

Lemma registries_grow_together_witness :
  match Lock demo_uuid 0%nat None (initial_state {[ 0%nat := raw_client ]}) with
  | Some (_, σ') => dom (_promisifiedClients σ') = dom (_shavaluators σ')
  | None => False
  end.
Proof.
  destruct (Lock demo_uuid 0%nat None (initial_state {[ 0%nat := raw_client ]}))
    as [[l σ']|] eqn:HLock; [|vm_compute in HLock; discriminate].
  by apply (registries_grow_together demo_uuid
              (initial_state {[ 0%nat := raw_client ]}) 0%nat None l σ').
Defined.

Lemma same_identity_shares_connection_witness :
  ∃ l σ' L,
    Lock demo_uuid 1%nat None twin_process = Some (l, σ') ∧
    locks σ' !! l = Some L ∧ lock_client L = 0%nat ∧
    clients σ' = clients twin_process.
Proof.
  edestruct (same_identity_shares_connection demo_uuid twin_process 0%nat 1%nat)
    as (l & σ' & L & HLock & HL & Hclient & _ & Hclients & _);
    [vm_compute; reflexivity|vm_compute; reflexivity|reflexivity|reflexivity
    |vm_compute; reflexivity|vm_compute; reflexivity|].
  exists l, σ', L. by split_and!.
Defined.

Lemma constructed_locks_are_initial_witness :
  match construct_seq demo_uuid [(0%nat, None); (1%nat, retrying 2); (0%nat, None)]
          (initial_state twin_clients) with
  | Some (ls, σ) =>
      initial {| sys_state := σ; sys_store := ∅; sys_tasks := ∅; sys_settled := [] |} ∧
      length ls = 3%nat
  | None => False
  end.
Proof.
  destruct (construct_seq demo_uuid [(0%nat, None); (1%nat, retrying 2); (0%nat, None)]
              (initial_state twin_clients)) as [[ls σ]|] eqn:Hrun;
    [|vm_compute in Hrun; discriminate].
  destruct (constructed_locks_are_initial demo_uuid twin_clients _ ls σ ∅
              demo_uuid_inj Hrun) as (Hinit & _ & Hlen).
  by split.
Defined.

Lemma holder_owns_key_and_releases_witness :
  let s := run [CallAcquire 0%nat "K"; Settle 0%nat] two_locks in
  sys_store s !! "K" = Some "uuid-0" ∧
  sys_store (run [CallRelease 0%nat; Settle 0%nat] s) = delete "K" (sys_store s).
Proof.
  destruct (holder_owns_key_and_releases two_locks [CallAcquire 0%nat "K"; Settle 0%nat]
              "K" 0%nat two_locks_initial)
    as (A & HA & Hstore & _ & Hdel & _).
  - vm_compute. done.
  - eexists. split; [vm_compute; reflexivity|]. by split_and!.
  - split; [|exact Hdel]. vm_compute in HA. injection HA as <-. exact Hstore.
Defined.

Lemma stale_release_spares_the_store_witness :
  let s' := run [CallRelease 0%nat; Settle 0%nat] after_expiry in
  sys_store s' = sys_store after_expiry ∧
  sys_store s' !! "K" = Some "uuid-2" ∧
  locks (sys_state s') !! 0%nat = Some (cleared held_lock).
Proof.
  destruct (stale_release_spares_the_store after_expiry 0%nat held_lock "K")
    as (Hstore & _ & Hlock & _);
    [vm_compute; reflexivity|reflexivity|reflexivity|vm_compute; reflexivity
    |vm_compute; discriminate|].
  split_and!; [exact Hstore| |exact Hlock].
  cbv zeta. rewrite Hstore. vm_compute. reflexivity.
Defined.

Lemma acquire_release_round_trip_witness :
  ∃ σ1 σ2,
    acquire 1 0%nat "K" false (process_with [None; None]) (∅ : gmap string string)
      = (Some Resolved, σ1, {[ "K" := "uuid-0" ]}) ∧
    release 0%nat false σ1 {[ "K" := "uuid-0" ]} = (Resolved, σ2, ∅) ∧
    locks σ2 = locks (process_with [None; None]).
Proof.
  edestruct (acquire_release_round_trip (process_with [None; None]) ∅ 0%nat
               (cleared held_lock) "K")
    as (σ1 & σ2 & σ3 & w3 & H1 & _ & H2 & Hlocks & _);
    [vm_compute; reflexivity|reflexivity|reflexivity|reflexivity|].
  exists σ1, σ2. by split_and!.
Defined.

(** The two steps of an [acquire] on a free key by a Lock that holds
    nothing and has nothing under way. *)
Lemma acquire_steps_free s l L key :
  locks (sys_state s) !! l = Some L →
  lock_locked L = false →
  task_of s l = Idle →
  sys_store s !! key = None →
  let s' := run [CallAcquire l key; Settle l] s in
  sys_store s' = <[key := lock_id L]> (sys_store s) ∧
  locks (sys_state s') = <[l := locked_on L key]> (locks (sys_state s)) ∧
  sys_settled s' = (sys_settled s ++ [(l, Resolved)])%list ∧
  (∀ l', task_of s' l' = if decide (l' = l) then Idle else task_of s l').
Proof.
  intros HL Hunlocked Hidle Hfree s'. subst s'.
  change (run [CallAcquire l key; Settle l] s)
    with (step (Settle l) (step (CallAcquire l key) s)).
  rewrite (step_call_acquire s l L key HL Hunlocked Hidle),
    (issue_set_granted _ _ _ _ _ _ Hfree).
  match goal with |- context [step _ ?s0] => set (s1 := s0) end.
  rewrite (step_settle_set s1 l L key (lock_retries L) (JStr "OK") HL)
    by (subst s1; by rewrite task_of_insert, decide_True).
  subst s1. unfold attemptLock_then. simpl. unfold acquire_then. simpl. rewrite HL. simpl.
  split_and!; try done. intros l'.
  unfold task_of; simpl; destruct (decide (l' = l)) as [->|Hne];
    [by rewrite lookup_insert_eq|by rewrite !lookup_insert_ne].
Qed.

Lemma run_app acts1 acts2 s : run (acts1 ++ acts2) s = run acts2 (run acts1 s).
Proof. apply foldl_app. Qed.

(** X13.  Handing over: along an orderly run (one operation at a time on each
    Lock, no expiry of [K], no lost answer to a [release] of [K]), once the
    Lock in the locked state for [K] has released, the [acquire(K)] of
    another Lock is granted at its first attempt; the store then holds the
    id of the new holder, which is in the locked state, and the former
    holder is not. *)
Theorem handoff_after_release s0 acts K a b B :
  initial s0 →
  orderly K acts s0 →
  a ≠ b →
  let s := run acts s0 in
  in_locked_state s a K →
  locks (sys_state s) !! b = Some B →
  lock_locked B = false →
  task_of s b = Idle →
  let s' := run [CallRelease a; Settle a; CallAcquire b K; Settle b] s in
  sys_settled s' = (sys_settled s ++ [(a, Resolved); (b, Resolved)])%list ∧
  sys_store s' !! K = Some (lock_id B) ∧
  in_locked_state s' b K ∧
  ¬ in_locked_state s' a K.
Proof.
  intros Hinit Hord Hab s Ha HB Hunlocked Hidle s'.
  assert (exclusive K s) as Hex by by apply run_exclusive, initial_exclusive.
  destruct (in_locked_state_store K s a Hex Ha) as (A & HA & Hstore).
  destruct Ha as (A' & HA' & Hlocked & Hkey & Hidle_a).
  rewrite HA in HA'. injection HA' as <-.
  subst s'.
  change [CallRelease a; Settle a; CallAcquire b K; Settle b]
    with ([CallRelease a; Settle a] ++ [CallAcquire b K; Settle b])%list.
  rewrite run_app.
  destruct (release_steps s a A HA Hlocked Hidle_a) as (Hst & Hlocks & _ & Hsettled & Htasks).
  remember (run [CallRelease a; Settle a] s) as s1 eqn:Hs1. clear Hs1.
  rewrite Hkey in Hst, Hsettled. simpl in Hst, Hsettled.
  unfold delifequal in Hst, Hsettled. rewrite decide_True in Hst, Hsettled by done.
  simpl in Hst, Hsettled.
  destruct (acquire_steps_free s1 b B K) as (Hst2 & Hlocks2 & Hsettled2 & Htasks2).
  { by rewrite Hlocks, lookup_insert_ne. }
  { done. }
  { by rewrite Htasks, decide_False. }
  { rewrite Hst. apply lookup_delete_eq. }
  split_and!.
  - rewrite Hsettled2, Hsettled. by rewrite <- app_assoc.
  - rewrite Hst2. apply lookup_insert_eq.
  - exists (locked_on B K). rewrite Hlocks2, lookup_insert_eq, Htasks2, decide_True by done.
    by split_and!.
  - intros (A' & HA' & Hlocked' & _).
    rewrite Hlocks2, lookup_insert_ne, Hlocks, lookup_insert_eq in HA' by done.
    injection HA' as <-. done.
Qed.

Lemma handoff_after_release_witness :
  let s := run [CallAcquire 0%nat "K"; Settle 0%nat] two_locks in
  let s' := run [CallRelease 0%nat; Settle 0%nat; CallAcquire 1%nat "K"; Settle 1%nat] s in
  sys_store s' !! "K" = Some "uuid-2" ∧ in_locked_state s' 1%nat "K".
Proof.
  edestruct (handoff_after_release two_locks [CallAcquire 0%nat "K"; Settle 0%nat]
               "K" 0%nat 1%nat) as (_ & Hstore & Hb & _);
    [apply two_locks_initial| |discriminate| |vm_compute; reflexivity|reflexivity
    |reflexivity|].
  - vm_compute. done.
  - eexists. split; [vm_compute; reflexivity|]. by split_and!.
  - split; [exact Hstore|exact Hb].
Defined.

(** ** What the rules of an orderly run are for *)


(** X14.  When the answer to a [release] is lost, the Lock stays locked though
    the store has deleted its key: Lock 0 acquires "K" and releases; the
    store deletes "K", the answer is lost and the promise of [release] is
    rejected; Lock 1 acquires "K".  Both Locks are now in the locked state
    for "K", with all their operations settled and nothing expired. *)
Theorem both_locked_after_lost_reply :
  let acts := [CallAcquire 0%nat "K"; Settle 0%nat;
               CallRelease 0%nat; Lose 0%nat 0%nat (ExternalError "ETIMEDOUT"); Settle 0%nat;
               CallAcquire 1%nat "K"; Settle 1%nat] in
  let s := run acts two_locks in
  sys_settled s = [(0%nat, Resolved);
                   (0%nat, Rejected (ExternalError "ETIMEDOUT"));
                   (1%nat, Resolved)] ∧
  sys_store s !! "K" = Some "uuid-2" ∧
  in_locked_state s 0%nat "K" ∧ in_locked_state s 1%nat "K".
Proof.
  split; [vm_compute; reflexivity|].
  split; [vm_compute; reflexivity|].
  split; eexists; (split; [vm_compute; reflexivity|]); split_and!; reflexivity.
Qed.

